(** * 2-opt local search for the TSP (TwoOpt.ipynb): model and properties

    The notebook defines a class [TSP] (distance matrix, route cache,
    heuristic state), the list primitive [swap] and the subclass [TwoOpt]
    holding the search engine.  Python integers are modelled by [Z], Python
    lists by [list], the class-level dict [routes] by a [gmap] keyed by
    strings.  The entries of the distance matrix are integers, as in the
    doctests, so that costs are added exactly; the statements below are
    about such matrices.  The cost code is also given over any kind of
    number ([Generic]), with binary64 floating-point numbers as a second
    instance, to show what rounding changes.  Exceptions are explicit: every
    operation that can raise returns an [outcome]. *)

From Stdlib Require Import ZArith Lia Ascii.
From Stdlib Require PrimFloat.
From stdpp Require Import gmap strings list sorting pretty.

Local Open Scope Z_scope.

(** ** The fragment of the Python runtime used by the notebook *)

Module Py.

Inductive exn : Type := IndexError | TypeError.

(** Result of running a piece of Python.  [OutOfFuel] is not a Python
    behaviour: it marks a [while] loop cut by the iteration bound of the
    model. *)
Inductive outcome (A : Type) : Type :=
| Ok (a : A)
| Raise (e : exn)
| OutOfFuel.
Global Arguments Ok {A} a.
Global Arguments Raise {A} e.
Global Arguments OutOfFuel {A}.

Global Instance outcome_ret : MRet outcome := λ A a, Ok a.
Global Instance outcome_bind : MBind outcome := λ A B f x,
  match x with
  | Ok a => f a
  | Raise e => Raise e
  | OutOfFuel => OutOfFuel
  end.

Definition is_ok {A} (x : outcome A) : bool :=
  match x with Ok _ => true | _ => false end.

(** [l[i]]: a negative index counts from the end, anything out of range
    raises IndexError. *)
Definition getitem {A} (l : list A) (i : Z) : outcome A :=
  let k := if i <? 0 then i + Z.of_nat (length l) else i in
  if k <? 0 then Raise IndexError
  else match l !! Z.to_nat k with
       | Some x => Ok x
       | None => Raise IndexError
       end.

(** Position denoted by a slice bound: negative bounds count from the end,
    and the result is clamped to [0, len]; slices never raise. *)
Definition slice_index {A} (l : list A) (i : Z) : nat :=
  let n := Z.of_nat (length l) in
  Z.to_nat (if i <? 0 then Z.max 0 (i + n) else Z.min i n).

(** [l[start:stop]], a missing bound being [None]. *)
Definition slice {A} (l : list A) (start stop : option Z) : list A :=
  let lo := from_option (slice_index l) 0%nat start in
  let hi := from_option (slice_index l) (length l) stop in
  take (hi - lo) (drop lo l).

(** [range(a, b)] *)
Definition range (a b : Z) : list Z := seqZ a (b - a).

(** [sorted(l)] on a list of integers. *)
Definition sorted (l : list Z) : list Z := merge_sort Z.le l.

(** [", ".join(l)] *)
Fixpoint join (sep : string) (l : list string) : string :=
  match l with
  | [] => ""
  | [s] => s
  | s :: l' => s +:+ sep +:+ join sep l'
  end.

(** [str(l)] on a list of integers. *)
Definition str (l : list Z) : string :=
  "[" +:+ join ", " (pretty <$> l) +:+ "]".

(** [x in l] *)
Definition contains (l : list Z) (x : Z) : bool := bool_decide (x ∈ l).

(** A [for] loop over [xs] with loop state [S]; the body either goes on
    with a new state ([inl]) or leaves the enclosing function with a value
    ([inr], a [return] inside the loop). *)
Fixpoint for_loop {X S R} (xs : list X) (body : X → S → outcome (S + R))
    (s : S) : outcome (S + R) :=
  match xs with
  | [] => Ok (inl s)
  | x :: xs' =>
      r ← body x s;
      match r with
      | inl s' => for_loop xs' body s'
      | inr v => Ok (inr v)
      end
  end.

End Py.

Import Py.

(** ** The segment-reversal primitive

    [swap(path, i, j)] is
    [path[:i] + list(reversed(path[i:j + 1])) + path[j + 1:]]. *)

Definition swap {A} (path : list A) (i j : Z) : list A :=
  slice path None (Some i)
    ++ reverse (slice path (Some i) (Some (j + 1)))
    ++ slice path (Some (j + 1)) None.

(** ** class TSP *)

Module TSP.

(** A value of the class-level dict [routes]: [{"path": ..., "cost": ...}]. *)
Record route : Type := Route { path : list Z; cost : Z }.

(** The attributes [__init__] gives an instance. *)
Record instance : Type := Instance {
  nodes : list Z;
  fast : bool;
  initial_path : list Z;
  initial_cost : Z;
  heuristic_path : list Z;
  heuristic_cost : Z
}.

(** What a method can read and write: the shared dict [TSP.routes] and the
    attributes of [self].  The matrix [TSP.edges] is set once by [setEdges]
    and only read afterwards; it is passed as the argument [edges]. *)
Record world : Type := World { routes : gmap string route; self : instance }.

Definition set_heuristic_path (p : list Z) (w : world) : world :=
  let o := self w in
  World (routes w)
    (Instance (nodes o) (fast o) (initial_path o) (initial_cost o)
              p (heuristic_cost o)).

Definition set_heuristic_cost (c : Z) (w : world) : world :=
  let o := self w in
  World (routes w)
    (Instance (nodes o) (fast o) (initial_path o) (initial_cost o)
              (heuristic_path o) c).

Definition set_route (key : string) (r : route) (w : world) : world :=
  World (<[key := r]> (routes w)) (self w).

(** Methods run in a state monad over [world] in which an exception keeps
    the writes made before it was raised. *)
Definition M (A : Type) : Type := world → outcome A * world.

Global Instance M_ret : MRet M := λ A a w, (Ok a, w).
Global Instance M_bind : MBind M := λ A B f m w,
  match m w with
  | (Ok a, w') => f a w'
  | (Raise e, w') => (Raise e, w')
  | (OutOfFuel, w') => (OutOfFuel, w')
  end.

Definition lift {A} (x : outcome A) : M A := λ w, (x, w).
Definition read {A} (f : world → A) : M A := λ w, (Ok (f w), w).
Definition modify (f : world → world) : M () := λ w, (Ok (), f w).

(** [TSP.edges[i][j]] *)
Definition dist (edges : list (list Z)) (i j : Z) : outcome Z :=
  row ← getitem edges i; getitem row j.

Definition pathCost (edges : list (list Z)) (path : list Z) : outcome Z :=
  (* Close the loop *)
  a ← getitem path (-1);
  b ← getitem path 0;
  cost ← dist edges a b;
  r ← for_loop (R := Empty_set) (range 1 (Z.of_nat (length path)))
        (λ i cost,
           x ← getitem path (i - 1);
           y ← getitem path i;
           d ← dist edges x y;
           Ok (inl (cost + d)))
        cost;
  match r with
  | inl cost => Ok cost
  | inr v => match v : Empty_set with end
  end.

Definition __init__ (edges : list (list Z)) (nodes : list Z) (fast : bool)
  : outcome instance :=
  initial_cost ← pathCost edges nodes;
  Ok (Instance nodes fast nodes initial_cost nodes initial_cost).

(** The cache key [str(sorted(path))]. *)
Definition route_key (path : list Z) : string := str (sorted path).

Definition save (path : list Z) (cost : Z) : M () :=
  modify (set_heuristic_path path);;
  modify (set_heuristic_cost cost);;
  modify (set_route (route_key path) (Route path cost)).

Definition update (edges : list (list Z)) (solution : list Z) : M () :=
  initial ← read (λ w, initial_path (self w));
  modify (set_heuristic_path (filter (λ i, contains solution i = true) initial));;
  p ← read (λ w, heuristic_path (self w));
  c ← lift (pathCost edges p);
  modify (set_heuristic_cost c).

(** [optimise]; the abstract method [_optimise] is the argument. *)
Definition optimise (_optimise : M ()) : M (list Z * Z) :=
  p ← read (λ w, heuristic_path (self w));
  let route := route_key p in
  table ← read routes;
  match table !! route with
  | Some saved =>
      modify (set_heuristic_path (path saved));;
      modify (set_heuristic_cost (cost saved))
  | None => _optimise
  end;;
  p ← read (λ w, heuristic_path (self w));
  c ← read (λ w, heuristic_cost (self w));
  mret (p, c).

(** [__str__]: the header line, then either the nodes joined by [" -> "]
    followed by the first node again, or the text for a route without cost.
    [newline] is the character written [\n] in the source. *)
Definition newline : string := String (Ascii.ascii_of_nat 10) EmptyString.

Definition __str__ (o : instance) : outcome string :=
  let out :=
    "Route with " +:+ pretty (Z.of_nat (length (heuristic_path o)))
      +:+ " nodes (" +:+ pretty (heuristic_cost o) +:+ "):" +:+ newline in
  if 0 <? heuristic_cost o then
    let out := out +:+ join " -> " (pretty <$> heuristic_path o) in
    first ← getitem (heuristic_path o) 0;
    Ok (out +:+ " -> " +:+ pretty first)
  else Ok (out +:+ "No current route.").

End TSP.

(** ** class TwoOpt(TSP) *)

Module TwoOpt.
Import TSP.

(** First half of the body of the inner loop of [_improve]: the four nodes
    and the change computed for positions [n], [m].  Arc [i -> k] is replaced
    by [i -> j] and arc [j -> l] by [k -> l]. *)
Definition change_of (edges : list (list Z)) (bestPath : list Z) (n m : Z)
  : outcome Z :=
  i ← getitem bestPath n;
  j ← getitem bestPath m;
  k ← getitem bestPath (n + 1);
  l ← getitem bestPath (m + 1);
  a ← dist edges i j;
  b ← dist edges k l;
  let change := a + b in
  c ← dist edges i k;
  d ← dist edges j l;
  Ok (change - (c + d)).

(** Loop state of [_improve]: [(bestChange, saved)]. *)
Definition scan_state : Type := Z * option (Z * Z).

(** The whole body of the inner loop: the change, then the comparison with
    [bestChange] and the early [return] of fast mode. *)
Definition _improve_body (edges : list (list Z)) (fast : bool)
    (bestPath : list Z) (n m : Z) (st : scan_state)
  : outcome (scan_state + (option (Z * Z) * Z)) :=
  let '(bestChange, saved) := st in
  change ← change_of edges bestPath n m;
  if change <? bestChange then
    (* If fast, we return the first improving move *)
    if fast then Ok (inr (Some (n, m), change))
    else Ok (inl (change, Some (n, m)))
  else Ok (inl (bestChange, saved)).

Definition _improve (edges : list (list Z)) (fast : bool)
    (bestPath : list Z) (size : Z) : outcome (option (Z * Z) * Z) :=
  r ← for_loop (range 0 (size - 3))
        (λ n st,
           for_loop (range (n + 2) (size - 1))
             (_improve_body edges fast bestPath n) st)
        (0, None);
  match r with
  | inl (bestChange, saved) => Ok (saved, bestChange)
  | inr v => Ok v
  end.

(** [_improve] with a ghost log: the same two loops and the same body,
    the loop state carrying in addition the list of the candidates
    evaluated so far, each with the change computed for it. *)
Definition _improve_body_traced (edges : list (list Z)) (fast : bool)
    (bestPath : list Z) (n m : Z) (st : scan_state * list (Z * Z * Z))
  : outcome (scan_state * list (Z * Z * Z)
             + (option (Z * Z) * Z) * list (Z * Z * Z)) :=
  let '((bestChange, saved), seen) := st in
  change ← change_of edges bestPath n m;
  let seen := seen ++ [(n, m, change)] in
  if change <? bestChange then
    if fast then Ok (inr ((Some (n, m), change), seen))
    else Ok (inl ((change, Some (n, m)), seen))
  else Ok (inl ((bestChange, saved), seen)).

Definition _improve_traced (edges : list (list Z)) (fast : bool)
    (bestPath : list Z) (size : Z)
  : outcome ((option (Z * Z) * Z) * list (Z * Z * Z)) :=
  r ← for_loop (range 0 (size - 3))
        (λ n st,
           for_loop (range (n + 2) (size - 1))
             (_improve_body_traced edges fast bestPath n) st)
        ((0, None), []);
  match r with
  | inl ((bestChange, saved), seen) => Ok ((saved, bestChange), seen)
  | inr v => Ok v
  end.

(** The [while bestChange < 0] loop of [_optimise], at most [fuel]
    iterations of it. *)
Fixpoint _optimise_loop (edges : list (list Z)) (fast : bool) (fuel : nat)
    (bestChange : Z) (bestPath : list Z) (size : Z) : outcome (list Z) :=
  if bestChange <? 0 then
    match fuel with
    | O => OutOfFuel
    | S fuel' =>
        '(saved, bestChange) ← _improve edges fast bestPath size;
        if bestChange <? 0 then
          match saved with
          | Some (i, j) =>
              (* `i` is the last element in place *)
              _optimise_loop edges fast fuel' bestChange
                (swap bestPath (i + 1) j) size
          | None => Raise TypeError
          end
        else _optimise_loop edges fast fuel' bestChange bestPath size
    end
  else Ok bestPath.

Definition _optimise (edges : list (list Z)) (fuel : nat) : M () :=
  start ← read (λ w, heuristic_path (self w));
  quick ← read (λ w, fast (self w));
  bestPath ← lift (_optimise_loop edges quick fuel (-1) start
                     (Z.of_nat (length start)));
  c ← lift (pathCost edges bestPath);
  save bestPath c.

End TwoOpt.

(** ** The class attribute [TSP.edges]

    A session pairs the matrix currently stored in [TSP.edges] with the rest
    of the state; [setEdges] replaces the matrix and nothing else, and the
    methods read the matrix of the session they run in. *)

Record session : Type :=
  Session { session_edges : list (list Z); session_world : TSP.world }.

Definition setEdges (edges : list (list Z)) (s : session) : session :=
  Session edges (session_world s).

(** [t.optimise()] for a [TwoOpt] instance [t], in a session. *)
Definition session_optimise (fuel : nat) (s : session)
  : outcome (list Z * Z) * session :=
  let '(r, w') :=
    TSP.optimise (TwoOpt._optimise (session_edges s) fuel) (session_world s) in
  (r, Session (session_edges s) w').

(** ** The cost code over any kind of number

    [dist], [pathCost] and [_improve] use the entries of the matrix only
    through [+], [-], [<] and the constant [0].  The definitions below are
    those of [TSP] and [TwoOpt] with these four as parameters; with the
    integers they are the definitions above, with binary64 numbers they are
    the code run on a matrix of Python or numpy floats. *)

Module Generic.

Class Number (A : Type) : Type := {
  num_zero : A;
  num_add : A → A → A;
  num_sub : A → A → A;
  num_ltb : A → A → bool
}.

Definition dist {A} (edges : list (list A)) (i j : Z) : outcome A :=
  row ← getitem edges i; getitem row j.

Definition pathCost `{Number A} (edges : list (list A)) (path : list Z)
  : outcome A :=
  a ← getitem path (-1);
  b ← getitem path 0;
  cost ← dist edges a b;
  r ← for_loop (R := Empty_set) (range 1 (Z.of_nat (length path)))
        (λ i cost,
           x ← getitem path (i - 1);
           y ← getitem path i;
           d ← dist edges x y;
           Ok (inl (num_add cost d)))
        cost;
  match r with
  | inl cost => Ok cost
  | inr v => match v : Empty_set with end
  end.

Definition change_of `{Number A} (edges : list (list A)) (bestPath : list Z)
    (n m : Z) : outcome A :=
  i ← getitem bestPath n;
  j ← getitem bestPath m;
  k ← getitem bestPath (n + 1);
  l ← getitem bestPath (m + 1);
  a ← dist edges i j;
  b ← dist edges k l;
  let change := num_add a b in
  c ← dist edges i k;
  d ← dist edges j l;
  Ok (num_sub change (num_add c d)).

Definition _improve_body `{Number A} (edges : list (list A)) (fast : bool)
    (bestPath : list Z) (n m : Z) (st : A * option (Z * Z))
  : outcome (A * option (Z * Z) + (option (Z * Z) * A)) :=
  let '(bestChange, saved) := st in
  change ← change_of edges bestPath n m;
  if num_ltb change bestChange then
    if fast then Ok (inr (Some (n, m), change))
    else Ok (inl (change, Some (n, m)))
  else Ok (inl (bestChange, saved)).

Definition _improve `{Number A} (edges : list (list A)) (fast : bool)
    (bestPath : list Z) (size : Z) : outcome (option (Z * Z) * A) :=
  r ← for_loop (range 0 (size - 3))
        (λ n st,
           for_loop (range (n + 2) (size - 1))
             (_improve_body edges fast bestPath n) st)
        (num_zero, None);
  match r with
  | inl (bestChange, saved) => Ok (saved, bestChange)
  | inr v => Ok v
  end.

Fixpoint _optimise_loop `{Number A} (edges : list (list A)) (fast : bool)
    (fuel : nat) (bestChange : A) (bestPath : list Z) (size : Z)
  : outcome (list Z) :=
  if num_ltb bestChange num_zero then
    match fuel with
    | O => OutOfFuel
    | S fuel' =>
        '(saved, bestChange) ← _improve edges fast bestPath size;
        if num_ltb bestChange num_zero then
          match saved with
          | Some (i, j) =>
              _optimise_loop edges fast fuel' bestChange
                (swap bestPath (i + 1) j) size
          | None => Raise TypeError
          end
        else _optimise_loop edges fast fuel' bestChange bestPath size
    end
  else Ok bestPath.

End Generic.

(** Python integers. *)
Global Instance int_number : Generic.Number Z :=
  {| Generic.num_zero := 0; Generic.num_add := Z.add;
     Generic.num_sub := Z.sub; Generic.num_ltb := Z.ltb |}.

(** Python and numpy floats: IEEE 754 binary64 with round to nearest even;
    [<] is false on NaN. *)
Global Instance float_number : Generic.Number PrimFloat.float :=
  {| Generic.num_zero := PrimFloat.zero; Generic.num_add := PrimFloat.add;
     Generic.num_sub := PrimFloat.sub; Generic.num_ltb := PrimFloat.ltb |}.

(** ** Vocabulary of the statements *)

Import TSP TwoOpt.

(** The distance read as a total function wherever the matrix has the entry. *)
Definition dist_total (edges : list (list Z)) (a b : Z) : Z :=
  match dist edges a b with
  | Ok v => v
  | _ => 0
  end.

(** Every pair of nodes of [path] has an entry in the matrix. *)
Definition valid_tour (edges : list (list Z)) (path : list Z) : bool :=
  forallb (λ a, forallb (λ b, is_ok (dist edges a b)) path) path.

(** The matrix is symmetric on the nodes of [path]. *)
Definition symmetric_on (edges : list (list Z)) (path : list Z) : bool :=
  forallb (λ a, forallb (λ b, dist_total edges a b =? dist_total edges b a) path)
    path.

(** Sum of [d] over the consecutive pairs of [p], in order. *)
Fixpoint edge_sum (d : Z → Z → Z) (p : list Z) : Z :=
  match p with
  | a :: (b :: _) as t => d a b + edge_sum d t
  | _ => 0
  end.

(** Cost of [p] read as a cycle: the closing edge and the consecutive pairs. *)
Definition cycle_cost (d : Z → Z → Z) (p : list Z) : Z :=
  match p with
  | [] => 0
  | a :: _ => d (List.last p a) a + edge_sum d p
  end.

(** The distances of the consecutive pairs of [p], each possibly failing. *)
Fixpoint edge_costs (edges : list (list Z)) (p : list Z) : list (outcome Z) :=
  match p with
  | a :: (b :: _) as t => dist edges a b :: edge_costs edges t
  | _ => []
  end.

(** Left-to-right sum starting from [acc]; the first failure wins. *)
Fixpoint sum_outcomes (acc : Z) (l : list (outcome Z)) : outcome Z :=
  match l with
  | [] => Ok acc
  | x :: l' => v ← x; sum_outcomes (acc + v) l'
  end.

(** The positions visited by the two nested loops of [_improve], in scan
    order. *)
Definition scan_pairs (size : Z) : list (Z * Z) :=
  n ← range 0 (size - 3); m ← range (n + 2) (size - 1); [(n, m)].

(** The change of a candidate, [0] where the source would raise. *)
Definition delta_at (edges : list (list Z)) (path : list Z) (c : Z * Z) : Z :=
  match change_of edges path c.1 c.2 with
  | Ok v => v
  | _ => 0
  end.

(** The largest absolute distance between two nodes of [p]. *)
Definition max_dist (edges : list (list Z)) (p : list Z) : Z :=
  foldr Z.max 0 (a ← p; b ← p; [Z.abs (dist_total edges a b)]).

(** No tour on the nodes of [p] costs less than [- cost_slack edges p]. *)
Definition cost_slack (edges : list (list Z)) (p : list Z) : Z :=
  (Z.of_nat (length p) + 1) * max_dist edges p.

(** A number of iterations of the search loop that suffices from [p] when
    every accepted move lowers the cost. *)
Definition fuel_bound (edges : list (list Z)) (p : list Z) : nat :=
  S (Z.to_nat (cycle_cost (dist_total edges) p + cost_slack edges p)).

(** A string free of the two characters that [str] writes after an element
    of a list: the comma and the closing bracket. *)
Fixpoint undelimited (s : string) : Prop :=
  match s with
  | EmptyString => True
  | String c s' => c ≠ ","%char ∧ c ≠ "]"%char ∧ undelimited s'
  end.

(** The matrix and start tour of the notebook's doctests. *)
Definition cross : list (list Z) :=
  [[0; 2; 3; 2]; [2; 0; 2; 3]; [3; 2; 0; 2]; [2; 3; 2; 0]].
Definition start : list Z := [0; 2; 1; 3].

(** The instance [TwoOpt(range(4))] of the class doctest over [cross], after
    [t.heuristic_path = start] and [t.heuristic_cost = 10], with an empty
    route cache. *)
Definition doctest_world : world :=
  World ∅ (Instance [0; 1; 2; 3] false [0; 1; 2; 3] 8 start 10).

(** The state of the [optimise] doctest: the cache holds the identity tour on
    four nodes with cost 16. *)
Definition cached_world : world :=
  World {[ "[0, 1, 2, 3]" := Route [0; 1; 2; 3] 16 ]}
        (Instance [0; 1; 2; 3] false [0; 1; 2; 3] 8 [0; 1; 2; 3] 8).

(** An asymmetric matrix with non-negative entries and a zero diagonal, and
    the identity tour on its five nodes. *)
Definition skewed : list (list Z) :=
  [[0; 3; 3; 3; 1]; [3; 0; 1; 1; 0]; [0; 0; 0; 0; 2]; [2; 0; 3; 0; 1];
   [1; 1; 3; 0; 0]].
Definition tour5 : list Z := [0; 1; 2; 3; 4].

(** A symmetric matrix on five nodes over which [tour5] can be improved. *)
Definition symmetric5 : list (list Z) :=
  [[0; 3; 1; 3; 1]; [3; 0; 1; 1; 3]; [1; 1; 0; 3; 2]; [3; 1; 3; 0; 1];
   [1; 3; 2; 1; 0]].

(** A symmetric matrix of floats with a zero diagonal: its entries are the
    binary64 numbers nearest to the decimals written. *)
Section FloatData.
Import PrimFloat.
#[local] Set Warnings "-inexact-float".
Definition tenths : list (list float) :=
  [[0%float; 0.1%float; 0.3%float; 0.1%float];
   [0.1%float; 0%float; 0.7%float; 0.6%float];
   [0.3%float; 0.7%float; 0%float; 0.8%float];
   [0.1%float; 0.6%float; 0.8%float; 0%float]].

(** The value of [bestChange] before the first scan. *)
Definition minus_one : float := (-1)%float.

(** The binary64 number nearest to 1.7, and the next one above it. *)
Definition cost_1_7 : float := 0x1.b333333333333p+0%float.
Definition cost_1_7_next : float := 0x1.b333333333334p+0%float.

(** [- 2^-53], half the distance from 1 to the next number below it. *)
Definition minus_half_ulp : float := (-0x1p-53)%float.
End FloatData.

Definition tour4 : list Z := [0; 1; 2; 3].

(** The tours the search loop goes through from [tour5] over [skewed]. *)
Definition skewed_cycle : list (list Z) :=
  [tour5; [0; 3; 2; 1; 4]; [0; 3; 1; 2; 4]; [0; 2; 1; 3; 4]].

(** * Properties *)

(** ** Runtime lemmas *)

Lemma bind_Ok {A B} (a : A) (f : A → outcome B) : (Ok a ≫= f) = f a.
Proof. reflexivity. Qed.

Lemma bind_Raise {A B} e (f : A → outcome B) : (Raise e ≫= f) = Raise e.
Proof. reflexivity. Qed.

Lemma bind_OutOfFuel {A B} (f : A → outcome B) : (OutOfFuel ≫= f) = OutOfFuel.
Proof. reflexivity. Qed.

Ltac len_solve :=
  repeat first [ rewrite length_app | progress cbn [length] ]; lia.

Ltac py_simpl :=
  repeat first
    [ rewrite bind_Ok | rewrite bind_Raise | rewrite bind_OutOfFuel ].

Section runtime.
Context {A : Type}.
Implicit Types (l : list A) (i : nat).

Lemma getitem_lookup l i x :
  l !! i = Some x → getitem l (Z.of_nat i) = Ok x.
Proof.
  intros Hx. unfold getitem.
  destruct (Z.ltb_spec (Z.of_nat i) 0) as [?|_]; [lia|].
  destruct (Z.ltb_spec (Z.of_nat i) 0) as [?|_]; [lia|].
  by rewrite Nat2Z.id, Hx.
Qed.

Lemma getitem_nat l (k : Z) x :
  0 ≤ k → l !! Z.to_nat k = Some x → getitem l k = Ok x.
Proof.
  intros Hk Hx. rewrite <- (Z2Nat.id k) by done. by apply getitem_lookup.
Qed.

Lemma getitem_last l x : getitem (l ++ [x]) (-1) = Ok x.
Proof.
  unfold getitem. simpl. rewrite length_app. simpl.
  destruct (Z.ltb_spec (-1 + Z.of_nat (length l + 1)) 0) as [?|_]; [lia|].
  replace (Z.to_nat (-1 + Z.of_nat (length l + 1))) with (length l) by lia.
  by rewrite list_lookup_middle.
Qed.

Lemma getitem_nil (k : Z) : getitem (@nil A) k = Raise IndexError.
Proof. unfold getitem. simpl. by repeat case_match. Qed.

Lemma slice_index_in l (k : Z) :
  0 ≤ k ≤ Z.of_nat (length l) → slice_index l k = Z.to_nat k.
Proof.
  intros Hk. unfold slice_index.
  destruct (Z.ltb_spec k 0); [lia|]. f_equal. lia.
Qed.

(** With bounds in range [swap] is the usual take/reverse/drop. *)
Lemma swap_in_range l (i j : Z) :
  0 ≤ i → i ≤ j + 1 → j < Z.of_nat (length l) →
  swap l i j =
    take (Z.to_nat i) l
      ++ reverse (take (Z.to_nat (j + 1) - Z.to_nat i) (drop (Z.to_nat i) l))
      ++ drop (Z.to_nat (j + 1)) l.
Proof.
  intros Hi Hij Hj. unfold swap, slice. simpl.
  rewrite !slice_index_in by lia.
  rewrite Nat.sub_0_r, drop_0.
  rewrite (take_ge (drop (Z.to_nat (j + 1)) l)); [done|].
  rewrite length_drop. lia.
Qed.
End runtime.

(** ** The reversal primitive *)

Section swap_lemmas.
Context {A : Type}.
Implicit Types (l : list A) (k : nat) (i j : Z).

Lemma swap_length l i j :
  0 ≤ i → i ≤ j + 1 → j < Z.of_nat (length l) →
  length (swap l i j) = length l.
Proof.
  intros Hi Hij Hj. rewrite swap_in_range by done.
  rewrite !length_app, length_reverse, !length_take, !length_drop. lia.
Qed.

Lemma swap_Permutation l i j :
  0 ≤ i → i ≤ j + 1 → j < Z.of_nat (length l) → swap l i j ≡ₚ l.
Proof.
  intros Hi Hij Hj. rewrite swap_in_range by done.
  rewrite reverse_Permutation.
  replace (drop (Z.to_nat (j + 1)) l)
    with (drop (Z.to_nat (j + 1) - Z.to_nat i) (drop (Z.to_nat i) l))
    by (rewrite drop_drop; f_equal; lia).
  by rewrite !take_drop.
Qed.

Lemma swap_lookup_outside l i j k :
  0 ≤ i → i ≤ j + 1 → j < Z.of_nat (length l) →
  Z.of_nat k < i ∨ j < Z.of_nat k →
  swap l i j !! k = l !! k.
Proof.
  intros Hi Hij Hj Hk. rewrite swap_in_range by done.
  destruct Hk as [Hk|Hk].
  - rewrite lookup_app_l by (rewrite length_take; lia).
    apply lookup_take_lt. lia.
  - rewrite lookup_app_r by (rewrite length_take; lia).
    rewrite lookup_app_r
      by (rewrite length_reverse, !length_take, length_drop; lia).
    rewrite lookup_drop. f_equal.
    rewrite length_reverse, !length_take, length_drop. lia.
Qed.

Lemma swap_lookup_inside l i j k :
  0 ≤ i → i ≤ j + 1 → j < Z.of_nat (length l) →
  i ≤ Z.of_nat k ≤ j →
  swap l i j !! k = l !! Z.to_nat (i + j - Z.of_nat k).
Proof.
  intros Hi Hij Hj Hk. rewrite swap_in_range by done.
  rewrite lookup_app_r by (rewrite length_take; lia).
  rewrite lookup_app_l
    by (rewrite length_reverse, !length_take, length_drop; lia).
  rewrite reverse_lookup by (rewrite !length_take, length_drop; lia).
  rewrite lookup_take_lt by (rewrite !length_take, length_drop; lia).
  rewrite lookup_drop. f_equal.
  rewrite !length_take, length_drop. lia.
Qed.
End swap_lemmas.

(** ** Distances and tour cost *)

Lemma valid_tour_dist edges p a b :
  valid_tour edges p = true → a ∈ p → b ∈ p →
  dist edges a b = Ok (dist_total edges a b).
Proof.
  unfold valid_tour. rewrite forallb_forall. intros Hv Ha Hb.
  apply list_elem_of_In, Hv in Ha. rewrite forallb_forall in Ha.
  apply list_elem_of_In, Ha in Hb. unfold dist_total.
  by destruct (dist edges a b).
Qed.

Lemma symmetric_on_dist edges p a b :
  symmetric_on edges p = true → a ∈ p → b ∈ p →
  dist_total edges a b = dist_total edges b a.
Proof.
  unfold symmetric_on. rewrite forallb_forall. intros Hv Ha Hb.
  apply list_elem_of_In, Hv in Ha. rewrite forallb_forall in Ha.
  apply list_elem_of_In, Ha in Hb. by apply Z.eqb_eq.
Qed.

Lemma valid_tour_Permutation edges p q :
  p ≡ₚ q → valid_tour edges p = true → valid_tour edges q = true.
Proof.
  intros Hpq. unfold valid_tour. rewrite !forallb_forall. intros Hv a Ha.
  rewrite forallb_forall. intros b Hb.
  apply list_elem_of_In in Ha, Hb. rewrite <- Hpq in Ha, Hb.
  apply list_elem_of_In in Ha, Hb.
  specialize (Hv a Ha). rewrite forallb_forall in Hv. by apply Hv.
Qed.

Lemma symmetric_on_Permutation edges p q :
  p ≡ₚ q → symmetric_on edges p = true → symmetric_on edges q = true.
Proof.
  intros Hpq. unfold symmetric_on. rewrite !forallb_forall. intros Hv a Ha.
  rewrite forallb_forall. intros b Hb.
  apply list_elem_of_In in Ha, Hb. rewrite <- Hpq in Ha, Hb.
  apply list_elem_of_In in Ha, Hb.
  specialize (Hv a Ha). rewrite forallb_forall in Hv. by apply Hv.
Qed.

(** The index loop of [pathCost], started after the prefix [pre]. *)
Lemma pathCost_loop edges pre x rest acc :
  for_loop (R := Empty_set)
    (seqZ (Z.of_nat (length pre) + 1) (Z.of_nat (length rest)))
    (λ i cost,
       a ← getitem (pre ++ x :: rest) (i - 1);
       b ← getitem (pre ++ x :: rest) i;
       d ← dist edges a b;
       Ok (inl (cost + d)))
    acc
  = (r ← sum_outcomes acc (edge_costs edges (x :: rest)); Ok (inl r)).
Proof.
  revert pre x acc. induction rest as [|y rest IH]; intros pre x acc; [done|].
  rewrite seqZ_cons by (simpl; lia). cbn [for_loop].
  replace (Z.of_nat (length pre) + 1 - 1) with (Z.of_nat (length pre)) by lia.
  rewrite (getitem_lookup _ _ x) by (by apply list_lookup_middle).
  replace (Z.of_nat (length pre) + 1) with (Z.of_nat (length (pre ++ [x])))
    by (rewrite length_app; simpl; lia).
  rewrite (getitem_lookup _ _ y).
  2:{ rewrite lookup_app_r by (rewrite length_app; simpl; lia).
      rewrite length_app. simpl.
      by replace (length pre + 1 - length pre)%nat with 1%nat by lia. }
  change (edge_costs edges (x :: y :: rest))
    with (dist edges x y :: edge_costs edges (y :: rest)).
  cbn [sum_outcomes]. py_simpl.
  destruct (dist edges x y) as [v| |]; py_simpl; [|done..].
  specialize (IH (pre ++ [x]) y (acc + v)).
  rewrite <- (assoc_L (++) pre [x]) in IH. cbn [app] in IH.
  rewrite <- IH. f_equal. simpl length. f_equal; lia.
Qed.

Lemma getitem_minus_one (x : Z) rest :
  getitem (x :: rest) (-1) = Ok (List.last (x :: rest) x).
Proof.
  destruct (exists_last (l := x :: rest)) as (l' & z & Hl); [done|].
  rewrite Hl, last_last. apply getitem_last.
Qed.

(** [pathCost] adds, from the closing edge on, the distance of every
    consecutive pair; it fails as soon as one of these distances does. *)
Lemma pathCost_cons edges x rest :
  pathCost edges (x :: rest) =
    (c ← dist edges (List.last (x :: rest) x) x;
     sum_outcomes c (edge_costs edges (x :: rest))).
Proof.
  unfold pathCost. rewrite getitem_minus_one. py_simpl.
  rewrite (getitem_nat _ 0 x) by done. py_simpl.
  destruct (dist edges _ x) as [c| |]; py_simpl; [|done..].
  unfold range.
  replace (Z.of_nat (length (x :: rest)) - 1) with (Z.of_nat (length rest))
    by (simpl length; lia).
  pose proof (pathCost_loop edges [] x rest c) as Hloop.
  cbn [app length] in Hloop. change (Z.of_nat 0 + 1) with 1 in Hloop.
  rewrite Hloop. by destruct (sum_outcomes c _).
Qed.

Lemma pathCost_nil edges : pathCost edges [] = Raise IndexError.
Proof. reflexivity. Qed.

Lemma sum_outcomes_total edges d p acc :
  (∀ a b, a ∈ p → b ∈ p → dist edges a b = Ok (d a b)) →
  sum_outcomes acc (edge_costs edges p) = Ok (acc + edge_sum d p).
Proof.
  intros Hd. revert acc. induction p as [|x [|y p] IH]; intros acc.
  - simpl. f_equal. lia.
  - simpl. f_equal. lia.
  - change (edge_costs edges (x :: y :: p))
      with (dist edges x y :: edge_costs edges (y :: p)).
    change (edge_sum d (x :: y :: p)) with (d x y + edge_sum d (y :: p)).
    cbn [sum_outcomes]. rewrite Hd by (repeat constructor). py_simpl.
    rewrite IH; [f_equal; lia|]. intros a b ? ?. apply Hd; by right.
Qed.

Lemma last_elem_of (x : Z) rest : List.last (x :: rest) x ∈ x :: rest.
Proof.
  destruct (exists_last (l := x :: rest)) as (l' & z & Hl); [done|].
  rewrite Hl, last_last. set_solver.
Qed.

(** On a tour whose distances are all defined [pathCost] is the cycle cost. *)
Lemma pathCost_total edges p :
  p ≠ [] → valid_tour edges p = true →
  pathCost edges p = Ok (cycle_cost (dist_total edges) p).
Proof.
  intros Hp Hv. destruct p as [|x rest]; [done|].
  rewrite pathCost_cons.
  rewrite (valid_tour_dist edges (x :: rest)); [|done|apply last_elem_of|set_solver].
  py_simpl. apply sum_outcomes_total.
  intros a b. by apply valid_tour_dist.
Qed.

(** ** Loops *)

Lemma for_loop_app {X S R} (xs ys : list X) (body : X → S → outcome (S + R)) s :
  for_loop (xs ++ ys) body s =
    (r ← for_loop xs body s;
     match r with
     | inl s' => for_loop ys body s'
     | inr v => Ok (inr v)
     end).
Proof.
  revert s. induction xs as [|x xs IH]; intros s; [done|].
  cbn [app for_loop]. destruct (body x s) as [[s'|v]| |]; py_simpl; auto.
Qed.

Section loops.
Context {X Y S R : Type}.

Lemma for_loop_pairs (x : X) (ys : list Y)
    (body : X → Y → S → outcome (S + R)) s :
  for_loop (y ← ys; [(x, y)]) (λ c, body c.1 c.2) s = for_loop ys (body x) s.
Proof.
  revert s. induction ys as [|y ys IH]; intros s; [done|].
  rewrite bind_cons. cbn [app for_loop fst snd].
  destruct (body x y s) as [[s'|v]| |]; py_simpl; auto.
Qed.

(** Two nested loops visit the pairs of the flattened list, in order. *)
Lemma for_loop_nested (xs : list X) (ys : X → list Y)
    (body : X → Y → S → outcome (S + R)) s :
  for_loop xs (λ x st, for_loop (ys x) (body x) st) s =
    for_loop (x ← xs; y ← ys x; [(x, y)]) (λ c, body c.1 c.2) s.
Proof.
  revert s. induction xs as [|x xs IH]; intros s; [done|].
  rewrite bind_cons, for_loop_app, for_loop_pairs. cbn [for_loop].
  destruct (for_loop (ys x) (body x) s) as [[s'|v]| |]; py_simpl; auto.
Qed.
End loops.

(** ** The scan of [_improve] *)

Lemma elem_of_scan_pairs size n m :
  (n, m) ∈ scan_pairs size ↔ 0 ≤ n ≤ size - 4 ∧ n + 2 ≤ m ≤ size - 2.
Proof.
  unfold scan_pairs, range. rewrite list_elem_of_bind. split.
  - intros (n' & Hm & Hn). apply elem_of_seqZ in Hn.
    apply list_elem_of_bind in Hm as (m' & Hc & Hm).
    apply elem_of_seqZ in Hm. apply list_elem_of_singleton in Hc.
    simplify_eq. lia.
  - intros [Hn Hm]. exists n. split; [|apply elem_of_seqZ; lia].
    apply list_elem_of_bind. exists m. split; [by apply list_elem_of_singleton|].
    apply elem_of_seqZ. lia.
Qed.

Lemma NoDup_scan_pairs size : NoDup (scan_pairs size).
Proof.
  unfold scan_pairs. apply NoDup_bind; [| |apply NoDup_seqZ].
  - intros n1 n2 [n m] _ _ H1 H2.
    apply list_elem_of_bind in H1 as (? & ?%list_elem_of_singleton & _).
    apply list_elem_of_bind in H2 as (? & ?%list_elem_of_singleton & _).
    congruence.
  - intros n _. apply NoDup_bind; [| |apply NoDup_seqZ].
    + intros m1 m2 c _ _ ?%list_elem_of_singleton ?%list_elem_of_singleton.
      congruence.
    + intros. apply NoDup_singleton.
Qed.

Lemma _improve_flat edges fast bestPath size :
  _improve edges fast bestPath size =
    (r ← for_loop (scan_pairs size)
           (λ c, _improve_body edges fast bestPath c.1 c.2) (0, None);
     match r with
     | inl (bestChange, saved) => Ok (saved, bestChange)
     | inr v => Ok v
     end).
Proof. unfold _improve. by rewrite for_loop_nested. Qed.

Section scan.
Variables (edges : list (list Z)) (path : list Z).
Local Abbreviation δ := (delta_at edges path).

Lemma _improve_body_ok fast c st :
  change_of edges path c.1 c.2 = Ok (δ c) →
  _improve_body edges fast path c.1 c.2 st =
    if δ c <? st.1 then
      if fast then Ok (inr (Some c, δ c)) else Ok (inl (δ c, Some c))
    else Ok (inl st).
Proof.
  intros Hc. unfold _improve_body. destruct st as [bc saved], c as [n m].
  cbn [fst snd] in *. rewrite Hc. by py_simpl.
Qed.

(** Exhaustive mode keeps the first candidate of least change below the
    initial [bestChange], if there is one. *)
Lemma scan_exhaustive cs bc saved :
  (∀ c, c ∈ cs → change_of edges path c.1 c.2 = Ok (δ c)) →
  ∃ bc' saved',
    for_loop cs (λ c, _improve_body edges false path c.1 c.2) (bc, saved)
      = Ok (inl (bc', saved'))
    ∧ ((Forall (λ c, bc ≤ δ c) cs ∧ bc' = bc ∧ saved' = saved)
       ∨ ∃ pre best post,
           cs = pre ++ best :: post ∧ δ best < bc
           ∧ Forall (λ c, δ best < δ c) pre
           ∧ Forall (λ c, δ best ≤ δ c) post
           ∧ bc' = δ best ∧ saved' = Some best).
Proof.
  revert bc saved. induction cs as [|c cs IH]; intros bc saved Hch.
  { exists bc, saved. split; [done|]. left. by split. }
  cbn [for_loop]. rewrite _improve_body_ok by (apply Hch; by left).
  cbn [fst]. py_simpl.
  assert (Hcs : ∀ c', c' ∈ cs → change_of edges path c'.1 c'.2 = Ok (δ c'))
    by (intros; apply Hch; by right).
  destruct (Z.ltb_spec (δ c) bc) as [Hlt|Hge]; py_simpl.
  - destruct (IH (δ c) (Some c) Hcs) as (bc' & saved' & -> & Hcase).
    exists bc', saved'. split; [done|]. right.
    destruct Hcase as [(Hall & -> & ->)|(pre & best & post & -> & ? & ? & ? & -> & ->)].
    + exists [], c, cs. by repeat split.
    + exists (c :: pre), best, post. repeat split; try done; [lia|].
      by constructor.
  - destruct (IH bc saved Hcs) as (bc' & saved' & -> & Hcase).
    exists bc', saved'. split; [done|].
    destruct Hcase as [(Hall & -> & ->)|(pre & best & post & -> & ? & ? & ? & -> & ->)].
    + left. repeat split; try done. by constructor.
    + right. exists (c :: pre), best, post. repeat split; try done.
      constructor; [lia|done].
Qed.

(** Fast mode leaves at the first candidate whose change is below
    [bestChange]. *)
Lemma scan_fast cs bc saved :
  (∀ c, c ∈ cs → change_of edges path c.1 c.2 = Ok (δ c)) →
  (Forall (λ c, bc ≤ δ c) cs
   ∧ for_loop cs (λ c, _improve_body edges true path c.1 c.2) (bc, saved)
     = Ok (inl (bc, saved)))
  ∨ ∃ pre c post,
      cs = pre ++ c :: post ∧ Forall (λ c', bc ≤ δ c') pre ∧ δ c < bc
      ∧ for_loop cs (λ c, _improve_body edges true path c.1 c.2) (bc, saved)
        = Ok (inr (Some c, δ c)).
Proof.
  induction cs as [|c cs IH]; intros Hch.
  { left. by split. }
  cbn [for_loop]. rewrite _improve_body_ok by (apply Hch; by left).
  cbn [fst].
  destruct (Z.ltb_spec (δ c) bc) as [Hlt|Hge]; py_simpl.
  - right. exists [], c, cs. by repeat split.
  - destruct IH as [[Hall Hrun]|(pre & c' & post & -> & ? & ? & Hrun)].
    + intros; apply Hch; by right.
    + left. split; [by constructor|done].
    + right. exists (c :: pre), c', post. repeat split; try done.
      by constructor.
Qed.
End scan.

Lemma for_loop_invariant {X S R} (I : S → Prop) (Q : R → Prop)
    (xs : list X) (body : X → S → outcome (S + R)) s :
  I s →
  (∀ x s, x ∈ xs → I s →
     match body x s with
     | Ok (inl s') => I s'
     | Ok (inr v) => Q v
     | _ => True
     end) →
  match for_loop xs body s with
  | Ok (inl s') => I s'
  | Ok (inr v) => Q v
  | _ => True
  end.
Proof.
  revert s. induction xs as [|x xs IH]; intros s Hs Hbody; [done|].
  cbn [for_loop]. pose proof (Hbody x s ltac:(by left) Hs) as Hx.
  destruct (body x s) as [[s'|v]| |]; py_simpl; try done.
  apply IH; [done|]. intros. apply Hbody; [by right|done].
Qed.

(** Whatever the matrix, a pair returned by [_improve] is a scanned position
    whose change is the returned one, and that change is negative; without a
    pair the returned change is [0]. *)
Lemma _improve_sound edges fast path size saved bc :
  _improve edges fast path size = Ok (saved, bc) →
  (saved = None ∧ bc = 0)
  ∨ ∃ n m, saved = Some (n, m) ∧ (n, m) ∈ scan_pairs size
           ∧ change_of edges path n m = Ok bc ∧ bc < 0.
Proof.
  rewrite _improve_flat.
  pose (good := λ (saved : option (Z * Z)) (bc : Z),
          ∃ n m, saved = Some (n, m) ∧ (n, m) ∈ scan_pairs size
                 ∧ change_of edges path n m = Ok bc ∧ bc < 0).
  pose proof (for_loop_invariant
    (λ st : scan_state, st = (0, None) ∨ good st.2 st.1)
    (λ v : option (Z * Z) * Z, good v.1 v.2)
    (scan_pairs size)
    (λ c, _improve_body edges fast path c.1 c.2) (0, None)
    ltac:(by left)) as Hinv.
  assert (Hbody : ∀ (c : Z * Z) (st : scan_state),
    c ∈ scan_pairs size → st = (0, None) ∨ good st.2 st.1 →
    match _improve_body edges fast path c.1 c.2 st with
    | Ok (inl s') => s' = (0, None) ∨ good s'.2 s'.1
    | Ok (inr v) => good v.1 v.2
    | _ => True
    end).
  { intros [n m] [bc0 saved0] Hc Hst. unfold _improve_body. cbn [fst snd].
    destruct (change_of edges path n m) as [v| |] eqn:Hv; py_simpl; [|done..].
    assert (bc0 ≤ 0)
      by (destruct Hst as [?|(?&?&?&?&?&?)]; simplify_eq/=; lia).
    destruct (Z.ltb_spec v bc0); [|done].
    destruct fast; cbn [fst snd]; [|right]; exists n, m;
      repeat split; done || lia. }
  specialize (Hinv Hbody).
  destruct (for_loop _ _ _) as [[[bc' saved']|[saved' bc']]| |];
    py_simpl; intros Hrun; simplify_eq.
  - destruct Hinv as [?|?]; [simplify_eq; by left|by right].
  - by right.
Qed.

Lemma getitem_total (l : list Z) (k : Z) :
  0 ≤ k < Z.of_nat (length l) →
  getitem l k = Ok (l !!! Z.to_nat k) ∧ l !!! Z.to_nat k ∈ l.
Proof.
  intros Hk. split.
  - apply getitem_nat; [lia|]. apply list_lookup_lookup_total_lt. lia.
  - apply list_elem_of_lookup_total_2. lia.
Qed.

(** On a valid tour the change of every in-range position pair is defined and
    is the 2-opt difference of the four arcs. *)
Lemma change_of_total edges path n m :
  valid_tour edges path = true →
  0 ≤ n → n + 2 ≤ m → m + 1 < Z.of_nat (length path) →
  let d := dist_total edges in
  let i := path !!! Z.to_nat n in
  let j := path !!! Z.to_nat m in
  let k := path !!! Z.to_nat (n + 1) in
  let l := path !!! Z.to_nat (m + 1) in
  change_of edges path n m = Ok (d i j + d k l - (d i k + d j l)).
Proof.
  intros Hv Hn Hnm Hm. cbv zeta. unfold change_of.
  destruct (getitem_total path n) as [-> ?]; [lia|].
  destruct (getitem_total path m) as [-> ?]; [lia|].
  destruct (getitem_total path (n + 1)) as [-> ?]; [lia|].
  destruct (getitem_total path (m + 1)) as [-> ?]; [lia|].
  py_simpl. by rewrite !(valid_tour_dist edges path) by done.
Qed.

Lemma scan_change_ok edges path c :
  valid_tour edges path = true →
  c ∈ scan_pairs (Z.of_nat (length path)) →
  change_of edges path c.1 c.2 = Ok (delta_at edges path c).
Proof.
  intros Hv Hc. destruct c as [n m]. apply elem_of_scan_pairs in Hc.
  unfold delta_at. cbn [fst snd].
  by rewrite change_of_total by (done || lia).
Qed.

(** The two scan modes on a valid tour. *)
Lemma _improve_exhaustive edges path :
  valid_tour edges path = true →
  let cs := scan_pairs (Z.of_nat (length path)) in
  let δ := delta_at edges path in
  (Forall (λ c, 0 ≤ δ c) cs
   ∧ _improve edges false path (Z.of_nat (length path)) = Ok (None, 0))
  ∨ ∃ pre best post,
      cs = pre ++ best :: post ∧ δ best < 0
      ∧ Forall (λ c, δ best < δ c) pre ∧ Forall (λ c, δ best ≤ δ c) post
      ∧ _improve edges false path (Z.of_nat (length path))
        = Ok (Some best, δ best).
Proof.
  intros Hv cs δ. rewrite _improve_flat.
  destruct (scan_exhaustive edges path cs 0 None) as (bc & saved & Hrun & Hcase).
  { intros. by apply scan_change_ok. }
  fold cs. rewrite Hrun. py_simpl.
  destruct Hcase as [(? & -> & ->)|(pre & best & post & ? & ? & ? & ? & -> & ->)].
  - by left.
  - right. by exists pre, best, post.
Qed.

Lemma _improve_fast edges path :
  valid_tour edges path = true →
  let cs := scan_pairs (Z.of_nat (length path)) in
  let δ := delta_at edges path in
  (Forall (λ c, 0 ≤ δ c) cs
   ∧ _improve edges true path (Z.of_nat (length path)) = Ok (None, 0))
  ∨ ∃ pre first post,
      cs = pre ++ first :: post ∧ δ first < 0
      ∧ Forall (λ c, 0 ≤ δ c) pre
      ∧ _improve edges true path (Z.of_nat (length path))
        = Ok (Some first, δ first).
Proof.
  intros Hv cs δ. rewrite _improve_flat.
  destruct (scan_fast edges path cs 0 None)
    as [[? Hrun]|(pre & c & post & ? & ? & ? & Hrun)].
  { intros. by apply scan_change_ok. }
  - left. split; [done|]. fold cs. by rewrite Hrun.
  - right. exists pre, c, post. repeat split; try done.
    fold cs. by rewrite Hrun.
Qed.

(** In either mode the scan of a valid tour returns. *)
Lemma _improve_returns edges fast path :
  valid_tour edges path = true →
  ∃ saved bc, _improve edges fast path (Z.of_nat (length path)) = Ok (saved, bc).
Proof.
  intros Hv. destruct fast.
  - destruct (_improve_fast edges path Hv) as [[_ ->]|(?&?&?&_&_&_&->)]; eauto.
  - destruct (_improve_exhaustive edges path Hv)
      as [[_ ->]|(?&?&?&_&_&_&_&->)]; eauto.
Qed.

(** ** Cost of a reversal *)

Section cost.
Variable d : Z → Z → Z.

Lemma edge_sum_app p x y q :
  edge_sum d (p ++ x :: y :: q) =
    edge_sum d (p ++ [x]) + d x y + edge_sum d (y :: q).
Proof.
  induction p as [|a [|b p] IH].
  - simpl. lia.
  - simpl in *. lia.
  - change (edge_sum d ((a :: b :: p) ++ x :: y :: q))
      with (d a b + edge_sum d ((b :: p) ++ x :: y :: q)).
    change (edge_sum d ((a :: b :: p) ++ [x]))
      with (d a b + edge_sum d ((b :: p) ++ [x])).
    rewrite IH. lia.
Qed.

Lemma edge_sum_snoc p x y :
  edge_sum d (p ++ [x; y]) = edge_sum d (p ++ [x]) + d x y.
Proof. rewrite edge_sum_app. simpl. lia. Qed.

Lemma edge_sum_reverse p :
  (∀ a b, a ∈ p → b ∈ p → d a b = d b a) →
  edge_sum d (reverse p) = edge_sum d p.
Proof.
  induction p as [|a [|b p] IH]; intros Hsym; [done..|].
  rewrite reverse_cons in IH.
  rewrite !reverse_cons, <- (assoc_L (++)). cbn [app].
  rewrite edge_sum_snoc, IH.
  - change (edge_sum d (a :: b :: p)) with (d a b + edge_sum d (b :: p)).
    rewrite (Hsym b a) by (repeat constructor). lia.
  - intros x y ? ?. apply Hsym; by right.
Qed.

Lemma last_default (x : Z) l d1 d2 :
  List.last (x :: l) d1 = List.last (x :: l) d2.
Proof. revert x. induction l as [|y l IH]; intros x; [done|]. apply IH. Qed.

Lemma last_app_cons (p : list Z) x q d0 :
  List.last (p ++ x :: q) d0 = List.last (x :: q) d0.
Proof.
  induction p as [|a p IH]; [done|].
  rewrite <- IH. cbn [app]. destruct (p ++ x :: q) eqn:E; [|done].
  by destruct p.
Qed.

Lemma cycle_cost_alt p :
  p ≠ [] → cycle_cost d p = d (List.last p 0) (hd 0 p) + edge_sum d p.
Proof.
  intros Hp. destruct p as [|a p]; [done|]. unfold cycle_cost.
  by rewrite (last_default a p a 0).
Qed.

(** Reversing the segment [k .. j] between [i] and [l] changes the cycle
    cost by the 2-opt difference, when [d] is symmetric on the segment. *)
Lemma two_opt_cost P i k mid j l Q :
  (∀ a b, a ∈ k :: mid ++ [j] → b ∈ k :: mid ++ [j] → d a b = d b a) →
  cycle_cost d (P ++ i :: reverse (k :: mid ++ [j]) ++ l :: Q) =
    cycle_cost d (P ++ i :: (k :: mid ++ [j]) ++ l :: Q)
    + (d i j + d k l - (d i k + d j l)).
Proof.
  intros Hsym.
  rewrite !cycle_cost_alt by (by destruct P).
  assert (Hhd : ∀ X, hd 0 (P ++ i :: X) = hd 0 (P ++ [i]))
    by (intros; by destruct P).
  rewrite !Hhd.
  assert (Hlast : ∀ X : list Z,
    List.last (P ++ i :: X ++ l :: Q) 0 = List.last (l :: Q) 0).
  { intros X. rewrite (cons_middle i P), !(assoc_L (++)).
    apply last_app_cons. }
  rewrite !Hlast.
  assert (Hrev : reverse (k :: mid ++ [j]) = j :: reverse mid ++ [k])
    by (by rewrite reverse_cons, reverse_app).
  pose proof (edge_sum_reverse (k :: mid ++ [j]) Hsym) as Hseg.
  rewrite Hrev in *.
  cbn [app]. rewrite <- !(assoc_L (++)). cbn [app].
  rewrite (edge_sum_app P i j), (edge_sum_app P i k).
  pose proof (edge_sum_app (j :: reverse mid) k l Q) as H1.
  pose proof (edge_sum_app (k :: mid) j l Q) as H2.
  cbn [app] in *. rewrite (Hhd (k :: mid ++ j :: l :: Q)). lia.
Qed.
End cost.

Lemma lookup_total_app_cons (pre : list Z) x post (k : Z) :
  k = Z.of_nat (length pre) → (pre ++ x :: post) !!! Z.to_nat k = x.
Proof.
  intros ->. rewrite Nat2Z.id. by apply list_lookup_total_middle.
Qed.

(** A position pair of the scan cuts the tour into a prefix ending in [i],
    the segment [k .. j] and a suffix starting with [l]. *)
Lemma move_decompose (path : list Z) n m :
  0 ≤ n → n + 2 ≤ m → m + 1 < Z.of_nat (length path) →
  ∃ P i k mid j l Q,
    path = P ++ i :: k :: mid ++ j :: l :: Q
    ∧ Z.of_nat (length P) = n ∧ Z.of_nat (length mid) = m - n - 2.
Proof.
  intros Hn Hnm Hm.
  destruct (lookup_lt_is_Some_2 path (Z.to_nat n)) as [i Hi]; [lia|].
  apply list_elem_of_split_length in Hi as (P & R1 & -> & HP).
  rewrite length_app in Hm. cbn [length] in Hm.
  destruct R1 as [|k R2]; [simpl in Hm; lia|]. cbn [length] in Hm.
  destruct (lookup_lt_is_Some_2 R2 (Z.to_nat (m - n - 2))) as [j Hj]; [lia|].
  apply list_elem_of_split_length in Hj as (mid & R3 & -> & Hmid).
  rewrite length_app in Hm. cbn [length] in Hm.
  destruct R3 as [|l Q]; [simpl in Hm; lia|].
  exists P, i, k, mid, j, l, Q. split; [done|]. lia.
Qed.

Lemma swap_decomposed (P : list Z) i k mid j l Q :
  swap (P ++ i :: k :: mid ++ j :: l :: Q)
       (Z.of_nat (length P) + 1)
       (Z.of_nat (length P) + Z.of_nat (length mid) + 2)
  = P ++ i :: reverse (k :: mid ++ [j]) ++ l :: Q.
Proof.
  rewrite swap_in_range; [|lia|lia|].
  2:{ len_solve. }
  assert (Hshape : P ++ i :: k :: mid ++ j :: l :: Q
                   = (P ++ [i]) ++ (k :: mid ++ [j]) ++ l :: Q).
  { rewrite <- !(assoc_L (++)). cbn [app]. by rewrite <- (assoc_L (++)). }
  rewrite Hshape.
  rewrite take_app_length' by len_solve.
  rewrite (drop_app_length' (P ++ [i])) by len_solve.
  rewrite take_app_length' by len_solve.
  rewrite (assoc_L (++) (P ++ [i]) (k :: mid ++ [j])).
  rewrite drop_app_length' by len_solve.
  by rewrite <- !(assoc_L (++)).
Qed.

(** The cost of the tour after an in-range move, for a matrix that is defined
    and symmetric on the nodes of the tour. *)
Lemma move_cost edges path n m :
  valid_tour edges path = true → symmetric_on edges path = true →
  0 ≤ n → n + 2 ≤ m → m + 1 < Z.of_nat (length path) →
  cycle_cost (dist_total edges) (swap path (n + 1) m) =
    cycle_cost (dist_total edges) path + delta_at edges path (n, m).
Proof.
  intros Hv Hs Hn Hnm Hm. unfold delta_at. cbn [fst snd].
  rewrite change_of_total by done. cbv zeta.
  destruct (move_decompose path n m) as (P&i&k&mid&j&l&Q&->&HP&Hmid);
    [done..|].
  assert (n = Z.of_nat (length P)) as -> by lia.
  assert (m = Z.of_nat (length P) + Z.of_nat (length mid) + 2) as -> by lia.
  clear HP Hmid Hn Hnm Hm.
  rewrite swap_decomposed.
  rewrite (lookup_total_app_cons P i) by done.
  pose proof (lookup_total_app_cons (P ++ [i]) k (mid ++ j :: l :: Q)
                (Z.of_nat (length P) + 1) ltac:(len_solve)) as Hk.
  pose proof (lookup_total_app_cons (P ++ i :: k :: mid) j (l :: Q)
                (Z.of_nat (length P) + Z.of_nat (length mid) + 2)
                ltac:(len_solve)) as Hj.
  pose proof (lookup_total_app_cons (P ++ i :: k :: mid ++ [j]) l Q
                (Z.of_nat (length P) + Z.of_nat (length mid) + 2 + 1)
                ltac:(len_solve)) as Hl.
  rewrite <- !(assoc_L (++)) in Hk, Hj, Hl. cbn [app] in Hk, Hj, Hl.
  rewrite <- !(assoc_L (++)) in Hl. cbn [app] in Hl.
  rewrite Hk, Hj, Hl.
  pose proof (two_opt_cost (dist_total edges) P i k mid j l Q) as Hcost.
  cbn [app] in Hcost. rewrite <- (assoc_L (++) mid [j]) in Hcost.
  cbn [app] in *. apply Hcost.
  assert (Hin : ∀ a, a ∈ k :: mid ++ [j] → a ∈ P ++ i :: k :: mid ++ j :: l :: Q).
  { intros a Ha. apply elem_of_app. right. right.
    change (a ∈ (k :: mid) ++ j :: l :: Q).
    change (a ∈ (k :: mid) ++ [j]) in Ha.
    rewrite elem_of_app in *. destruct Ha as [?|Ha]; [by left|right].
    apply list_elem_of_singleton in Ha as ->. by left. }
  intros a b Ha Hb. eapply symmetric_on_dist; eauto.
Qed.

(** ** A floor under the cost of the rearrangements of a tour *)

Lemma foldr_max_ge (l : list Z) x : x ∈ l → x ≤ foldr Z.max 0 l.
Proof.
  induction 1 as [x l|x y l _ IH]; cbn [foldr]; lia.
Qed.

Lemma foldr_max_nonneg (l : list Z) : 0 ≤ foldr Z.max 0 l.
Proof. induction l; cbn [foldr]; lia. Qed.

Lemma max_dist_ge edges p a b :
  a ∈ p → b ∈ p → - max_dist edges p ≤ dist_total edges a b.
Proof.
  intros Ha Hb.
  assert (Z.abs (dist_total edges a b) ≤ max_dist edges p); [|lia].
  apply foldr_max_ge. apply list_elem_of_bind. exists a. split; [|done].
  apply list_elem_of_bind. exists b. split; [|done].
  by apply list_elem_of_singleton.
Qed.

Lemma max_dist_Permutation edges p q :
  p ≡ₚ q → ∀ a b, a ∈ q → b ∈ q → - max_dist edges p ≤ dist_total edges a b.
Proof. intros Hpq a b Ha Hb. apply max_dist_ge; by rewrite Hpq. Qed.

Lemma edge_sum_floor d M (q : list Z) :
  0 ≤ M → (∀ a b, a ∈ q → b ∈ q → - M ≤ d a b) →
  - (Z.of_nat (length q) * M) ≤ edge_sum d q.
Proof.
  intros HM. induction q as [|a [|b q] IH]; intros Hd.
  - simpl. lia.
  - simpl. lia.
  - change (edge_sum d (a :: b :: q)) with (d a b + edge_sum d (b :: q)).
    assert (- M ≤ d a b) by (apply Hd; repeat constructor).
    assert (- (Z.of_nat (length (b :: q)) * M) ≤ edge_sum d (b :: q)).
    { apply IH. intros x y ? ?. apply Hd; by right. }
    cbn [length] in *. lia.
Qed.

Lemma cycle_cost_floor edges p q :
  p ≡ₚ q → - cost_slack edges p ≤ cycle_cost (dist_total edges) q.
Proof.
  intros Hpq. unfold cost_slack. rewrite (Permutation_length Hpq).
  pose proof (foldr_max_nonneg
    (a ← p; b ← p; [Z.abs (dist_total edges a b)])) as HM.
  fold (max_dist edges p) in HM.
  pose proof (edge_sum_floor (dist_total edges) (max_dist edges p) q HM
                (max_dist_Permutation edges p q Hpq)) as Hsum.
  destruct q as [|x q]; [simpl; lia|]. unfold cycle_cost.
  pose proof (max_dist_Permutation edges p (x :: q) Hpq
                (List.last (x :: q) x) x (last_elem_of x q) ltac:(by left)).
  lia.
Qed.

(** ** The search loop *)

Lemma _optimise_loop_done edges fast fuel bc p size :
  0 ≤ bc → _optimise_loop edges fast fuel bc p size = Ok p.
Proof.
  intros Hbc. destruct fuel; cbn [_optimise_loop];
    by destruct (Z.ltb_spec bc 0); [lia|].
Qed.

Lemma _optimise_loop_step edges fast fuel bc p size :
  bc < 0 →
  _optimise_loop edges fast (S fuel) bc p size =
    ('(saved, bc') ← _improve edges fast p size;
     if bc' <? 0 then
       match saved with
       | Some (i, j) =>
           _optimise_loop edges fast fuel bc' (swap p (i + 1) j) size
       | None => Raise TypeError
       end
     else _optimise_loop edges fast fuel bc' p size).
Proof.
  intros Hbc. cbn [_optimise_loop]. by destruct (Z.ltb_spec bc 0); [|lia].
Qed.

(** A move returned by the scan keeps the nodes and the length of the tour. *)
Lemma scan_move_Permutation (p : list Z) n m :
  (n, m) ∈ scan_pairs (Z.of_nat (length p)) →
  swap p (n + 1) m ≡ₚ p ∧ length (swap p (n + 1) m) = length p.
Proof.
  intros Hc%elem_of_scan_pairs.
  split; [apply swap_Permutation|apply swap_length]; lia.
Qed.

(** Whatever the matrix and the bound, a tour returned by the loop is a
    rearrangement of the tour it started from, and the loop only stops on a
    scan that found nothing. *)
Lemma _optimise_loop_sound edges fast fuel bc p p' :
  _optimise_loop edges fast fuel bc p (Z.of_nat (length p)) = Ok p' →
  p' ≡ₚ p
  ∧ ((0 ≤ bc ∧ p' = p)
     ∨ _improve edges fast p' (Z.of_nat (length p')) = Ok (None, 0)).
Proof.
  revert bc p. induction fuel as [|fuel IH]; intros bc p.
  { cbn [_optimise_loop]. destruct (Z.ltb_spec bc 0); [done|].
    intros [= <-]. split; [done|]. by left. }
  destruct (Z.ltb_spec bc 0) as [Hneg|Hpos].
  2:{ rewrite _optimise_loop_done by done. intros [= <-]. split; [done|by left]. }
  rewrite _optimise_loop_step by done.
  destruct (_improve edges fast p _) as [[saved bc']| |] eqn:Himp;
    py_simpl; [|done..].
  apply _improve_sound in Himp as Hcase.
  destruct Hcase as [[-> ->]|(n & m & -> & Hc & _ & Hlt)].
  - cbn. rewrite _optimise_loop_done by done. intros [= <-].
    split; [done|]. by right.
  - destruct (Z.ltb_spec bc' 0); [|lia].
    destruct (scan_move_Permutation p n m Hc) as [Hperm Hlen].
    rewrite <- Hlen. intros Hrun. apply IH in Hrun as [Hp' Hstop].
    split; [by rewrite Hp'|]. right.
    destruct Hstop as [[? _]|?]; [lia|done].
Qed.

(** With a matrix defined and symmetric on the nodes of the start tour, the
    loop reaches a tour on which the scan finds nothing, within a number of
    iterations bounded by the distance of the cost to its floor. *)
Lemma _optimise_loop_converges edges fast path (k : nat) :
  valid_tour edges path = true → symmetric_on edges path = true →
  ∀ q, q ≡ₚ path →
    (Z.to_nat (cycle_cost (dist_total edges) q + cost_slack edges path) < k)%nat →
    ∃ p', p' ≡ₚ path
          ∧ _improve edges fast p' (Z.of_nat (length p')) = Ok (None, 0)
          ∧ cycle_cost (dist_total edges) p' ≤ cycle_cost (dist_total edges) q
          ∧ ∀ fuel bc, (k ≤ fuel)%nat → bc < 0 →
              _optimise_loop edges fast fuel bc q (Z.of_nat (length q)) = Ok p'.
Proof.
  intros Hv Hs. induction k as [|k IH]; intros q Hq Hk; [lia|].
  assert (Hvq : valid_tour edges q = true)
    by (by apply (valid_tour_Permutation edges path)).
  assert (Hsq : symmetric_on edges q = true)
    by (by apply (symmetric_on_Permutation edges path)).
  destruct (_improve_returns edges fast q Hvq) as (saved & bc' & Himp).
  apply _improve_sound in Himp as Hcase.
  destruct Hcase as [[-> ->]|(n & m & -> & Hc & Hch & Hlt)].
  - exists q. repeat split; [done..|lia|].
    intros [|fuel] bc Hfuel Hbc; [lia|].
    rewrite _optimise_loop_step, Himp by done. py_simpl. cbn.
    by apply _optimise_loop_done.
  - destruct (scan_move_Permutation q n m Hc) as [Hperm Hlen].
    apply elem_of_scan_pairs in Hc as Hrange.
    pose proof (move_cost edges q n m Hvq Hsq) as Hcost.
    unfold delta_at in Hcost. cbn [fst snd] in Hcost. rewrite Hch in Hcost.
    specialize (Hcost ltac:(lia) ltac:(lia) ltac:(lia)).
    pose proof (cycle_cost_floor edges path (swap q (n + 1) m)
                  ltac:(by rewrite Hperm)) as Hfloor.
    destruct (IH (swap q (n + 1) m)) as (p' & Hp' & Hopt & Hle & Hrun).
    { by rewrite Hperm. }
    { lia. }
    exists p'. repeat split; [done..|lia|].
    intros [|fuel] bc Hfuel Hbc; [lia|].
    rewrite _optimise_loop_step, Himp by done. py_simpl.
    destruct (Z.ltb_spec bc' 0); [|lia].
    rewrite <- Hlen. apply Hrun; [lia|done].
Qed.

Lemma _optimise_loop_total edges fast path :
  valid_tour edges path = true → symmetric_on edges path = true →
  ∃ p', p' ≡ₚ path
        ∧ _improve edges fast p' (Z.of_nat (length p')) = Ok (None, 0)
        ∧ cycle_cost (dist_total edges) p' ≤ cycle_cost (dist_total edges) path
        ∧ ∀ fuel, (fuel_bound edges path ≤ fuel)%nat →
            _optimise_loop edges fast fuel (-1) path (Z.of_nat (length path))
            = Ok p'.
Proof.
  intros Hv Hs.
  destruct (_optimise_loop_converges edges fast path (fuel_bound edges path)
              Hv Hs path) as (p' & ? & ? & ? & Hrun); [done|unfold fuel_bound; lia|].
  exists p'. repeat split; [done..|]. intros fuel Hfuel. by apply Hrun.
Qed.

(** ** Methods on the instance state *)

Lemma update_run edges solution w :
  let p := filter (λ i, contains solution i = true) (initial_path (self w)) in
  update edges solution w =
    match pathCost edges p with
    | Ok c => (Ok (), set_heuristic_cost c (set_heuristic_path p w))
    | Raise e => (Raise e, set_heuristic_path p w)
    | OutOfFuel => (OutOfFuel, set_heuristic_path p w)
    end.
Proof.
  cbv zeta. unfold update, read, modify, lift, mbind, M_bind. cbn.
  by destruct (pathCost edges _).
Qed.

Lemma save_run p c w :
  save p c w =
    (Ok (), set_route (route_key p) (Route p c)
              (set_heuristic_cost c (set_heuristic_path p w))).
Proof. reflexivity. Qed.

Lemma optimise_hit engine w saved :
  routes w !! route_key (heuristic_path (self w)) = Some saved →
  optimise engine w =
    (Ok (path saved, cost saved),
     set_heuristic_cost (cost saved) (set_heuristic_path (path saved) w)).
Proof.
  intros Hhit. unfold optimise, read, modify, mbind, M_bind, mret, M_ret.
  cbn. by rewrite Hhit.
Qed.

Lemma optimise_miss engine w :
  routes w !! route_key (heuristic_path (self w)) = None →
  optimise engine w =
    match engine w with
    | (Ok _, w') =>
        (Ok (heuristic_path (self w'), heuristic_cost (self w')), w')
    | (Raise e, w') => (Raise e, w')
    | (OutOfFuel, w') => (OutOfFuel, w')
    end.
Proof.
  intros Hmiss. unfold optimise, read, modify, mbind, M_bind, mret, M_ret.
  cbn. rewrite Hmiss. by destruct (engine w) as [[[]| |] w'].
Qed.

Lemma _optimise_run edges fuel w :
  let p := heuristic_path (self w) in
  _optimise edges fuel w =
    match
      _optimise_loop edges (fast (self w)) fuel (-1) p (Z.of_nat (length p))
    with
    | Ok p' =>
        match pathCost edges p' with
        | Ok c => save p' c w
        | Raise e => (Raise e, w)
        | OutOfFuel => (OutOfFuel, w)
        end
    | Raise e => (Raise e, w)
    | OutOfFuel => (OutOfFuel, w)
    end.
Proof.
  cbv zeta. unfold _optimise, read, lift, mbind, M_bind. cbn.
  destruct (_optimise_loop _ _ _ _ _ _) as [p'| |]; [|done..].
  by destruct (pathCost edges p').
Qed.

(** The cache key does not depend on the order of the nodes. *)
Lemma route_key_Permutation p q : p ≡ₚ q → route_key p = route_key q.
Proof.
  intros Hpq. unfold route_key, sorted. f_equal.
  apply (Sorted_unique Z.le); [apply Sorted_merge_sort; apply _..|].
  by rewrite !merge_sort_Permutation.
Qed.

Lemma _optimise_effect edges fuel w w' :
  _optimise edges fuel w = (Ok (), w') →
  ∃ p' c',
    p' ≡ₚ heuristic_path (self w)
    ∧ _improve edges (fast (self w)) p' (Z.of_nat (length p')) = Ok (None, 0)
    ∧ pathCost edges p' = Ok c'
    ∧ w' = set_route (route_key (heuristic_path (self w))) (Route p' c')
             (set_heuristic_cost c' (set_heuristic_path p' w)).
Proof.
  rewrite _optimise_run.
  destruct (_optimise_loop _ _ _ _ _ _) as [p'| |] eqn:Hloop; [|done..].
  destruct (pathCost edges p') as [c'| |] eqn:Hcost; [|done..].
  rewrite save_run. intros [= <-].
  apply _optimise_loop_sound in Hloop as [Hperm Hstop].
  exists p', c'. repeat split; [done| |done|].
  - destruct Hstop as [[? _]|?]; [lia|done].
  - by rewrite (route_key_Permutation _ _ Hperm).
Qed.

Lemma Permutation_nonempty (p q : list Z) : p ≡ₚ q → q ≠ [] → p ≠ [].
Proof. intros Hpq Hq ->. by apply Permutation_nil_l in Hpq. Qed.

Lemma _optimise_returns edges w :
  let p := heuristic_path (self w) in
  p ≠ [] → valid_tour edges p = true → symmetric_on edges p = true →
  ∃ w', ∀ fuel, (fuel_bound edges p ≤ fuel)%nat →
    _optimise edges fuel w = (Ok (), w').
Proof.
  intros p Hp Hv Hs.
  destruct (_optimise_loop_total edges (fast (self w)) p Hv Hs)
    as (p' & Hperm & _ & _ & Hrun).
  eexists. intros fuel Hfuel. rewrite _optimise_run. fold p.
  rewrite Hrun by done.
  rewrite pathCost_total.
  - by rewrite save_run.
  - by apply (Permutation_nonempty _ p).
  - by apply (valid_tour_Permutation edges p).
Qed.

(** ** The ghost log of the scan *)

Lemma for_loop_erase {X S S' R R'} (f : S' → S) (g : R' → R)
    (xs : list X) (body : X → S → outcome (S + R))
    (body' : X → S' → outcome (S' + R')) s' :
  (∀ x s', body x (f s') = (r ← body' x s'; Ok (sum_map f g r))) →
  for_loop xs body (f s') = (r ← for_loop xs body' s'; Ok (sum_map f g r)).
Proof.
  intros Hbody. revert s'. induction xs as [|x xs IH]; intros s'; [done|].
  cbn [for_loop]. rewrite Hbody.
  destruct (body' x s') as [[s''|v]| |]; py_simpl; cbn [sum_map]; auto.
Qed.

Lemma _improve_traced_flat edges fast bestPath size :
  _improve_traced edges fast bestPath size =
    (r ← for_loop (scan_pairs size)
           (λ c, _improve_body_traced edges fast bestPath c.1 c.2)
           ((0, None), []);
     match r with
     | inl ((bestChange, saved), seen) => Ok ((saved, bestChange), seen)
     | inr v => Ok v
     end).
Proof. unfold _improve_traced. by rewrite for_loop_nested. Qed.

(** Dropping the log gives back [_improve], failures included. *)
Lemma _improve_traced_erase edges fast bestPath size :
  _improve edges fast bestPath size =
    (r ← _improve_traced edges fast bestPath size; Ok r.1).
Proof.
  rewrite _improve_flat, _improve_traced_flat.
  change (0, @None (Z * Z)) with (fst ((0, @None (Z * Z)), @nil (Z * Z * Z))).
  rewrite (for_loop_erase fst fst _ _
             (λ c, _improve_body_traced edges fast bestPath c.1 c.2)).
  - destruct (for_loop _ _ _) as [[[[bc saved] seen]|[v seen]]| |];
      py_simpl; done.
  - intros [n m] [[bc saved] seen]. unfold _improve_body, _improve_body_traced.
    cbn [fst snd].
    destruct (change_of edges bestPath n m) as [v| |]; py_simpl; [|done..].
    by destruct (v <? bc), fast.
Qed.

Lemma _improve_body_traced_exhaustive edges path n m v bc saved seen :
  change_of edges path n m = Ok v →
  _improve_body_traced edges false path n m ((bc, saved), seen) =
    Ok (inl ((if v <? bc then (v, Some (n, m)) else (bc, saved)),
             seen ++ [(n, m, v)])).
Proof.
  intros Hv. unfold _improve_body_traced. rewrite Hv. py_simpl.
  by destruct (v <? bc).
Qed.

(** In exhaustive mode the log is the whole candidate list, in scan order,
    each candidate with its change. *)
Lemma scan_exhaustive_log edges path cs st seen :
  (∀ c, c ∈ cs → change_of edges path c.1 c.2 = Ok (delta_at edges path c)) →
  ∃ st',
    for_loop cs (λ c, _improve_body_traced edges false path c.1 c.2) (st, seen)
    = Ok (inl (st', seen ++ ((λ c, (c, delta_at edges path c)) <$> cs))).
Proof.
  revert st seen. induction cs as [|c cs IH]; intros st seen Hch.
  { exists st. cbn. by rewrite app_nil_r. }
  destruct st as [bc saved], c as [n m].
  cbn [for_loop fst snd].
  pose proof (Hch (n, m) ltac:(by left)) as Hc. cbn [fst snd] in Hc.
  rewrite (_improve_body_traced_exhaustive _ _ _ _ _ _ _ _ Hc). py_simpl.
  assert (Hcs : ∀ c', c' ∈ cs →
            change_of edges path c'.1 c'.2 = Ok (delta_at edges path c'))
    by (intros; apply Hch; by right).
  destruct (IH (if delta_at edges path (n, m) <? bc
                then (delta_at edges path (n, m), Some (n, m))
                else (bc, saved))
               (seen ++ [(n, m, delta_at edges path (n, m))]) Hcs)
    as [st' Hst].
  exists st'. rewrite fmap_cons.
  replace (seen ++ ((n, m), delta_at edges path (n, m))
             :: ((λ c, (c, delta_at edges path c)) <$> cs))
    with ((seen ++ [(n, m, delta_at edges path (n, m))])
            ++ ((λ c, (c, delta_at edges path c)) <$> cs))
    by (by rewrite <- (assoc_L (++))).
  exact Hst.
Qed.

Lemma _improve_traced_exhaustive edges path :
  valid_tour edges path = true →
  ∃ r, _improve_traced edges false path (Z.of_nat (length path))
       = Ok (r, (λ c, (c, delta_at edges path c))
                  <$> scan_pairs (Z.of_nat (length path)))
       ∧ _improve edges false path (Z.of_nat (length path)) = Ok r.
Proof.
  intros Hv. rewrite _improve_traced_erase, _improve_traced_flat.
  destruct (scan_exhaustive_log edges path
              (scan_pairs (Z.of_nat (length path))) (0, None) [])
    as ([bc saved] & Hrun).
  { intros. by apply scan_change_ok. }
  unfold scan_state in *. exists (saved, bc). rewrite Hrun. by py_simpl.
Qed.

(** ** An asymmetric matrix on which the search loop cycles *)

Lemma skewed_moves :
  Forall (λ p, ∀ fast, ∃ n m bc,
            _improve skewed fast p 5 = Ok (Some (n, m), bc) ∧ bc < 0
            ∧ swap p (n + 1) m ∈ skewed_cycle)
         skewed_cycle.
Proof.
  repeat constructor; intros [];
    (eexists _, _, _; split; [vm_compute; reflexivity|]; split; [done|]);
    vm_compute; repeat first [by left | right].
Qed.

Lemma skewed_loops fast fuel :
  ∀ bc p, bc < 0 → p ∈ skewed_cycle →
    _optimise_loop skewed fast fuel bc p 5 = OutOfFuel.
Proof.
  induction fuel as [|fuel IH]; intros bc p Hbc Hp.
  { cbn. by destruct (Z.ltb_spec bc 0); [|lia]. }
  rewrite _optimise_loop_step by done.
  pose proof skewed_moves as Hmoves. rewrite Forall_forall in Hmoves.
  destruct (Hmoves p Hp fast) as (n & m & bc' & -> & Hbc' & Hnext).
  py_simpl. destruct (Z.ltb_spec bc' 0); [|lia]. by apply IH.
Qed.

(** Over [skewed] the scan of the tour [0,1,2,3,4] returns, in both modes,
    the pair (0, 3) with change -1, and reversing the sub-range [1, 3] takes
    [pathCost] from 6 to 7. *)
Lemma skewed_move_raises_cost :
  valid_tour skewed tour5 = true
  ∧ _improve skewed false tour5 5 = Ok (Some (0, 3), -1)
  ∧ _improve skewed true tour5 5 = Ok (Some (0, 3), -1)
  ∧ pathCost skewed tour5 = Ok 6
  ∧ pathCost skewed (swap tour5 (0 + 1) 3) = Ok 7
  ∧ ¬ 7 < 6.
Proof. split_and!; reflexivity || lia. Qed.

(** Over [skewed] the search loop started on the tour [0,1,2,3,4] never
    reaches its exit, in either mode. *)
Lemma skewed_search_never_returns :
  (¬ ∃ fuel final, _optimise_loop skewed false fuel (-1) tour5 5 = Ok final)
  ∧ (¬ ∃ fuel final, _optimise_loop skewed true fuel (-1) tour5 5 = Ok final).
Proof.
  split; intros (fuel & final & Hrun);
    rewrite skewed_loops in Hrun; done || by left.
Qed.

(** ** The generic cost code *)

(** With the integers the generic code is the code of [TSP] and [TwoOpt]. *)
Lemma generic_int_agree (edges : list (list Z)) :
  (∀ i j, Generic.dist edges i j = dist edges i j)
  ∧ (∀ path, Generic.pathCost edges path = pathCost edges path)
  ∧ (∀ path n m, Generic.change_of edges path n m = change_of edges path n m)
  ∧ (∀ fast path size,
       Generic._improve edges fast path size = _improve edges fast path size)
  ∧ (∀ fast fuel bc path size,
       Generic._optimise_loop edges fast fuel bc path size
       = _optimise_loop edges fast fuel bc path size).
Proof.
  split_and!; try reflexivity.
  intros fast fuel. induction fuel as [|fuel IH]; intros bc path size; [done|].
  cbn [Generic._optimise_loop _optimise_loop]. cbn.
  destruct (bc <? 0); [|done].
  change (Generic._improve edges fast path size)
    with (_improve edges fast path size).
  destruct (_improve edges fast path size) as [[saved bc']| |];
    py_simpl; [|done..].
  destruct (bc' <? 0), saved as [[n m]|]; done || apply IH.
Qed.

Section generic.
Context `{Generic.Number A}.
Implicit Types (edges : list (list A)) (path : list Z).

Lemma generic_improve_flat edges fast path size :
  Generic._improve edges fast path size =
    (r ← for_loop (scan_pairs size)
           (λ c, Generic._improve_body edges fast path c.1 c.2)
           (Generic.num_zero, None);
     match r with
     | inl (bestChange, saved) => Ok (saved, bestChange)
     | inr v => Ok v
     end).
Proof. unfold Generic._improve. by rewrite for_loop_nested. Qed.

(** Whatever the numbers and the matrix, a pair returned by the scan is a
    scanned position and the change returned with it is the one computed for
    it; without a pair the returned change is the initial [0]. *)
Lemma generic_improve_sound edges fast path size saved bc :
  Generic._improve edges fast path size = Ok (saved, bc) →
  (saved = None ∧ bc = Generic.num_zero)
  ∨ ∃ n m, saved = Some (n, m) ∧ (n, m) ∈ scan_pairs size
           ∧ Generic.change_of edges path n m = Ok bc.
Proof.
  rewrite generic_improve_flat.
  pose (good := λ (saved : option (Z * Z)) (bc : A),
          ∃ n m, saved = Some (n, m) ∧ (n, m) ∈ scan_pairs size
                 ∧ Generic.change_of edges path n m = Ok bc).
  pose proof (for_loop_invariant
    (λ st : A * option (Z * Z),
       st = (Generic.num_zero, None) ∨ good st.2 st.1)
    (λ v : option (Z * Z) * A, good v.1 v.2)
    (scan_pairs size)
    (λ c, Generic._improve_body edges fast path c.1 c.2)
    (Generic.num_zero, None) ltac:(by left)) as Hinv.
  assert (Hbody : ∀ (c : Z * Z) (st : A * option (Z * Z)),
    c ∈ scan_pairs size → st = (Generic.num_zero, None) ∨ good st.2 st.1 →
    match Generic._improve_body edges fast path c.1 c.2 st with
    | Ok (inl s') => s' = (Generic.num_zero, None) ∨ good s'.2 s'.1
    | Ok (inr v) => good v.1 v.2
    | _ => True
    end).
  { intros [n m] [bc0 saved0] Hc Hst. unfold Generic._improve_body.
    cbn [fst snd].
    destruct (Generic.change_of edges path n m) as [v| |] eqn:Hv;
      py_simpl; [|done..].
    destruct (Generic.num_ltb v bc0); [|done].
    destruct fast; cbn [fst snd]; [|right]; by exists n, m. }
  specialize (Hinv Hbody).
  destruct (for_loop _ _ _) as [[[bc' saved']|[saved' bc']]| |];
    py_simpl; intros Hrun; simplify_eq.
  - destruct Hinv as [?|?]; [simplify_eq; by left|by right].
  - by right.
Qed.

Lemma generic_loop_done edges fast fuel bc path size :
  Generic.num_ltb bc Generic.num_zero = false →
  Generic._optimise_loop edges fast fuel bc path size = Ok path.
Proof. intros Hbc. by destruct fuel; cbn [Generic._optimise_loop]; rewrite Hbc. Qed.

(** One iteration of the loop: the tour changes only when the change that
    the scan returns is below [0]. *)
Lemma generic_loop_step edges fast fuel bc path size saved bc' :
  Generic.num_ltb bc Generic.num_zero = true →
  Generic._improve edges fast path size = Ok (saved, bc') →
  Generic._optimise_loop edges fast (S fuel) bc path size =
    if Generic.num_ltb bc' Generic.num_zero then
      match saved with
      | Some (i, j) =>
          Generic._optimise_loop edges fast fuel bc' (swap path (i + 1) j) size
      | None => Raise TypeError
      end
    else Ok path.
Proof.
  intros Hbc Himp. cbn [Generic._optimise_loop]. rewrite Hbc, Himp. py_simpl.
  destruct (Generic.num_ltb bc' Generic.num_zero) eqn:Hbc'; [done|].
  by apply generic_loop_done.
Qed.
End generic.

(** With binary64 entries the cost that [pathCost] computes depends on the
    node the tour starts at and on its direction, even over a symmetric
    matrix: the additions are rounded one after the other. *)
Lemma rounded_cost_depends_on_order :
  Generic.pathCost tenths ([0] ++ [1; 2; 3]) = Ok cost_1_7
  ∧ Generic.pathCost tenths ([1; 2; 3] ++ [0]) = Ok cost_1_7_next
  ∧ Generic.pathCost tenths (reverse ([0] ++ [1; 2; 3])) = Ok cost_1_7_next
  ∧ cost_1_7 ≠ cost_1_7_next.
Proof.
  split_and!; try (vm_compute; reflexivity).
  intros Heq.
  assert (Hlt : PrimFloat.ltb cost_1_7 cost_1_7_next = true)
    by (vm_compute; reflexivity).
  rewrite Heq in Hlt. vm_compute in Hlt. discriminate.
Qed.

(** ** Auxiliary facts for the statements *)

(** On a valid tour the change of a scanned pair is the difference of the
    four arcs, read from the matrix. *)
Lemma delta_at_arcs edges (tour : list Z) c :
  valid_tour edges tour = true →
  c ∈ scan_pairs (Z.of_nat (length tour)) →
  let d := dist_total edges in
  let at_ := λ k : Z, tour !!! Z.to_nat k in
  delta_at edges tour c =
    d (at_ c.1) (at_ c.2) + d (at_ (c.1 + 1)) (at_ (c.2 + 1))
    - d (at_ c.1) (at_ (c.1 + 1)) - d (at_ c.2) (at_ (c.2 + 1)).
Proof.
  intros Hv Hc. destruct c as [n m]. apply elem_of_scan_pairs in Hc.
  unfold delta_at. cbn [fst snd].
  rewrite change_of_total by (done || lia). cbv zeta. lia.
Qed.

Lemma Forall_on {X} (P Q : X → Prop) (l : list X) :
  (∀ x, x ∈ l → P x → Q x) → Forall P l → Forall Q l.
Proof.
  rewrite !Forall_forall. intros HPQ HP x Hx. by apply HPQ, HP.
Qed.


(** ** The doctests of the notebook *)

Example swap_doctests :
  swap [0; 1; 2; 3; 4; 5; 6; 7; 8; 9] 0 1 = [1; 0; 2; 3; 4; 5; 6; 7; 8; 9]
  ∧ swap [0; 1; 2; 3; 4; 5; 6; 7; 8; 9] 2 6 = [0; 1; 6; 5; 4; 3; 2; 7; 8; 9]
  ∧ swap start 0 2 = [1; 2; 0; 3].
Proof. repeat split; reflexivity. Qed.

Example init_doctest :
  __init__ cross [0; 1; 2; 3] false
  = Ok (Instance [0; 1; 2; 3] false [0; 1; 2; 3] 8 [0; 1; 2; 3] 8).
Proof. reflexivity. Qed.

(** [t._optimise(); t.heuristic_cost] is 8. *)
Example twoopt_doctest :
  (_optimise cross 2 doctest_world).1 = Ok ()
  ∧ heuristic_path (self (_optimise cross 2 doctest_world).2) = [0; 1; 2; 3]
  ∧ heuristic_cost (self (_optimise cross 2 doctest_world).2) = 8.
Proof. repeat split; vm_compute; reflexivity. Qed.

(** [t.optimise()] is [([0, 1, 2, 3], 16)], whatever the engine. *)
Example optimise_doctest engine :
  (optimise engine cached_world).1 = Ok ([0; 1; 2; 3], 16).
Proof.
  by rewrite (optimise_hit engine cached_world (Route [0; 1; 2; 3] 16)).
Qed.

(** * The claims *)

(** C5. For a list [tour] and indices [0 ≤ i ≤ j < length tour],
    [swap tour i j] has the length of [tour], agrees with [tour] at every
    position outside [i, j] and holds at position [k] of [i, j] the element
    that [tour] holds at [i + j - k]: the inclusive sub-range is exactly
    reversed.  [swap] is a function of its arguments that builds its result
    from slices, so the input list is not modified.  The two doctest values
    are [swap([1,2,3,4,5], 1, 2) = [1,3,2,4,5]] and
    [swap([1,2,3,4,5], 0, 3) = [4,3,2,1,5]]. *)
Theorem swap_reverses_segment {A} (tour : list A) (i j : Z) :
  0 ≤ i → i ≤ j → j < Z.of_nat (length tour) →
  length (swap tour i j) = length tour
  ∧ (∀ k : nat, Z.of_nat k < i ∨ j < Z.of_nat k →
       swap tour i j !! k = tour !! k)
  ∧ (∀ k : nat, i ≤ Z.of_nat k ≤ j →
       swap tour i j !! k = tour !! Z.to_nat (i + j - Z.of_nat k))
  ∧ swap [1; 2; 3; 4; 5] 1 2 = [1; 3; 2; 4; 5]
  ∧ swap [1; 2; 3; 4; 5] 0 3 = [4; 3; 2; 1; 5].
Proof.
  intros Hi Hij Hj. split_and!.
  - apply swap_length; lia.
  - intros k Hk. apply swap_lookup_outside; lia || done.
  - intros k Hk. apply swap_lookup_inside; lia.
  - reflexivity.
  - reflexivity.
Qed.

Lemma swap_reverses_segment_witness :
  0 ≤ 2 ∧ 2 ≤ 6 ∧ 6 < Z.of_nat (length (seqZ 0 10))
  ∧ length (swap (seqZ 0 10) 2 6) = length (seqZ 0 10)
  ∧ swap (seqZ 0 10) 2 6 !! 3%nat = seqZ 0 10 !! 5%nat.
Proof.
  assert (H0 : 0 ≤ 2) by lia.
  assert (H1 : 2 ≤ 6) by lia.
  assert (H2 : 6 < Z.of_nat (length (seqZ 0 10))) by (vm_compute; reflexivity).
  destruct (swap_reverses_segment (seqZ 0 10) 2 6 H0 H1 H2)
    as (Hlen & _ & Hin & _).
  split_and!; [exact H0|exact H1|exact H2|exact Hlen|].
  apply (Hin 3%nat). lia.
Defined.

(** C6. For a non-empty tour [pathCost] is the closing edge from the last
    node back to the first plus the distances of the consecutive pairs in
    tour order (failing as soon as one of these distances is missing from the
    matrix); on the 4x4 doctest matrix the tour [0,1,2,3] costs 8, while its
    consecutive pairs alone sum to 6. *)
Theorem pathCost_closes_cycle edges (tour : list Z) :
  tour ≠ [] →
  pathCost edges tour =
    (closing ← dist edges (List.last tour 0) (hd 0 tour);
     sum_outcomes closing (edge_costs edges tour))
  ∧ (valid_tour edges tour = true →
     pathCost edges tour =
       Ok (dist_total edges (List.last tour 0) (hd 0 tour)
           + edge_sum (dist_total edges) tour))
  ∧ pathCost cross [0; 1; 2; 3] = Ok 8
  ∧ edge_sum (dist_total cross) [0; 1; 2; 3] = 6.
Proof.
  intros Htour. split_and!.
  - destruct tour as [|x rest]; [done|].
    rewrite pathCost_cons. by rewrite (last_default x rest x 0).
  - intros Hv. rewrite pathCost_total by done.
    by rewrite cycle_cost_alt.
  - reflexivity.
  - reflexivity.
Qed.

Lemma pathCost_closes_cycle_witness :
  start ≠ [] ∧ valid_tour cross start = true ∧ pathCost cross start = Ok 10.
Proof.
  assert (H0 : start ≠ []) by discriminate.
  assert (H1 : valid_tour cross start = true) by reflexivity.
  destruct (pathCost_closes_cycle cross start H0) as (_ & Htotal & _).
  split_and!; [exact H0|exact H1|].
  rewrite (Htotal H1). reflexivity.
Defined.

(** C3. On a tour whose distances are all defined, the change that one scan
    by [_improve] computes for a candidate [(n, m)] is
    [dist(tour[n],tour[m]) + dist(tour[n+1],tour[m+1])
     - dist(tour[n],tour[n+1]) - dist(tour[m],tour[m+1])], the distances
    being the entries of the matrix; a candidate is improving when this
    number is negative.  With the fast flag set the scan returns the first
    improving candidate of the scan order, with its change; with the flag
    unset it returns a candidate of least change over the whole candidate
    list (the first one in scan order among equals), when that change is
    negative.  In both modes it returns no pair, and change 0, when no
    candidate has a negative change. *)
Theorem improve_mode_policy edges (tour : list Z) :
  valid_tour edges tour = true →
  let size := Z.of_nat (length tour) in
  let cs := scan_pairs size in
  let d := dist_total edges in
  let at_ := λ k : Z, tour !!! Z.to_nat k in
  let δ := λ c : Z * Z,
    d (at_ c.1) (at_ c.2) + d (at_ (c.1 + 1)) (at_ (c.2 + 1))
    - d (at_ c.1) (at_ (c.1 + 1)) - d (at_ c.2) (at_ (c.2 + 1)) in
  (∀ a b, a ∈ tour → b ∈ tour → dist edges a b = Ok (d a b))
  ∧ (∀ c, c ∈ cs → change_of edges tour c.1 c.2 = Ok (δ c))
  ∧ ((Forall (λ c, 0 ≤ δ c) cs ∧ _improve edges true tour size = Ok (None, 0))
     ∨ ∃ pre first post,
         cs = pre ++ first :: post ∧ δ first < 0
         ∧ Forall (λ c, 0 ≤ δ c) pre
         ∧ _improve edges true tour size = Ok (Some first, δ first))
  ∧ ((Forall (λ c, 0 ≤ δ c) cs ∧ _improve edges false tour size = Ok (None, 0))
     ∨ ∃ pre best post,
         cs = pre ++ best :: post ∧ δ best < 0
         ∧ Forall (λ c, δ best < δ c) pre
         ∧ Forall (λ c, δ best ≤ δ c) post
         ∧ _improve edges false tour size = Ok (Some best, δ best)).
Proof.
  intros Hv size cs d at_ δ.
  assert (Hδ : ∀ c, c ∈ cs → delta_at edges tour c = δ c)
    by (intros c Hc; by apply delta_at_arcs).
  split_and!.
  - intros a b Ha Hb. by apply (valid_tour_dist edges tour).
  - intros c Hc. rewrite <- Hδ by done. by apply scan_change_ok.
  - destruct (_improve_fast edges tour Hv)
      as [[Hall Hrun]|(pre & first & post & Hcs & Hlt & Hpre & Hrun)].
    + left. split; [|done]. revert Hall. apply Forall_on.
      intros c Hc. by rewrite Hδ.
    + assert (Hin : ∀ c, c ∈ pre ++ first :: post → delta_at edges tour c = δ c)
        by (intros c Hc; apply Hδ; unfold cs, size; by rewrite Hcs).
      rewrite (Hin first) in Hlt, Hrun
        by (apply elem_of_app; right; left).
      right. exists pre, first, post. split_and!; [done..| |done].
      revert Hpre. apply Forall_on. intros c Hc. rewrite Hin; [done|].
      apply elem_of_app. by left.
  - destruct (_improve_exhaustive edges tour Hv)
      as [[Hall Hrun]|(pre & best & post & Hcs & Hlt & Hpre & Hpost & Hrun)].
    + left. split; [|done]. revert Hall. apply Forall_on.
      intros c Hc. by rewrite Hδ.
    + assert (Hin : ∀ c, c ∈ pre ++ best :: post → delta_at edges tour c = δ c)
        by (intros c Hc; apply Hδ; unfold cs, size; by rewrite Hcs).
      rewrite (Hin best) in Hlt, Hpre, Hpost, Hrun
        by (apply elem_of_app; right; left).
      right. exists pre, best, post. split_and!; [done..| | |done].
      * revert Hpre. apply Forall_on. intros c Hc. rewrite Hin; [done|].
        apply elem_of_app. by left.
      * revert Hpost. apply Forall_on. intros c Hc. rewrite Hin; [done|].
        apply elem_of_app. right. by right.
Qed.

Lemma improve_mode_policy_witness :
  valid_tour cross start = true
  ∧ dist cross 0 1 = Ok 2 ∧ dist cross 2 3 = Ok 2
  ∧ dist cross 0 2 = Ok 3 ∧ dist cross 1 3 = Ok 3
  ∧ change_of cross start 0 2 = Ok (-2)
  ∧ _improve cross true start 4 = Ok (Some (0, 2), -2)
  ∧ _improve cross false start 4 = Ok (Some (0, 2), -2).
Proof.
  assert (H0 : valid_tour cross start = true) by reflexivity.
  destruct (improve_mode_policy cross start H0)
    as (Hd & Hch & Hfast & Hfull).
  assert (Hin : ∀ a, a ∈ [0; 1; 2; 3] → a ∈ start).
  { intros a Ha. unfold start.
    repeat (apply elem_of_cons in Ha as [->|Ha]);
      [repeat first [by left | right]..|by apply elem_of_nil in Ha]. }
  split; [exact H0|].
  split; [apply (Hd 0 1); apply Hin; repeat first [by left | right]|].
  split; [apply (Hd 2 3); apply Hin; repeat first [by left | right]|].
  split; [apply (Hd 0 2); apply Hin; repeat first [by left | right]|].
  split; [apply (Hd 1 3); apply Hin; repeat first [by left | right]|].
  split; [apply (Hch (0, 2)); by left|].
  split.
  - destruct Hfast as [[Hall _]|(pre & first & post & Hcs & _ & _ & Hrun)].
    + exfalso. apply Forall_cons in Hall as [Hneg _]. vm_compute in Hneg.
      by apply Hneg.
    + destruct pre as [|c pre].
      * injection Hcs as <- _. exact Hrun.
      * exfalso. injection Hcs as _ Hcs. by destruct pre.
  - destruct Hfull as [[Hall _]|(pre & best & post & Hcs & _ & _ & _ & Hrun)].
    + exfalso. apply Forall_cons in Hall as [Hneg _]. vm_compute in Hneg.
      by apply Hneg.
    + destruct pre as [|c pre].
      * injection Hcs as <- _. exact Hrun.
      * exfalso. injection Hcs as _ Hcs. by destruct pre.
Defined.

(** C4. For a tour of length [S] whose distances are all defined, a scan by
    [_improve] without the fast flag evaluates the candidates [(n, m)] with
    [0 ≤ n ≤ S-3] and [n+2 ≤ m ≤ S-2], each exactly once and no other: the
    log of the evaluated candidates is the candidate list, in scan order, and
    the change logged for [(n, m)] is
    [dist(tour[n],tour[m]) + dist(tour[n+1],tour[m+1])
     - dist(tour[n],tour[n+1]) - dist(tour[m],tour[m+1])].  Dropping the log
    from the instrumented scan gives [_improve] itself. *)
Theorem exhaustive_scan_candidates edges (tour : list Z) :
  valid_tour edges tour = true →
  let size := Z.of_nat (length tour) in
  let d := dist_total edges in
  let at_ := λ k : Z, tour !!! Z.to_nat k in
  let delta := λ c : Z * Z,
    d (at_ c.1) (at_ c.2) + d (at_ (c.1 + 1)) (at_ (c.2 + 1))
    - d (at_ c.1) (at_ (c.1 + 1)) - d (at_ c.2) (at_ (c.2 + 1)) in
  (∀ n m, (n, m) ∈ scan_pairs size ↔ 0 ≤ n ≤ size - 3 ∧ n + 2 ≤ m ≤ size - 2)
  ∧ NoDup (scan_pairs size)
  ∧ (∀ c, c ∈ scan_pairs size → change_of edges tour c.1 c.2 = Ok (delta c))
  ∧ (∃ r, _improve_traced edges false tour size
          = Ok (r, (λ c, (c, delta c)) <$> scan_pairs size)
          ∧ _improve edges false tour size = Ok r)
  ∧ (∀ fast size', _improve edges fast tour size' =
                   (r ← _improve_traced edges fast tour size'; Ok r.1)).
Proof.
  intros Hv size d at_ delta.
  assert (Hdelta : ∀ c, c ∈ scan_pairs size →
            change_of edges tour c.1 c.2 = Ok (delta c)
            ∧ delta_at edges tour c = delta c).
  { intros [n m] Hc. apply elem_of_scan_pairs in Hc as Hr.
    unfold delta_at. cbn [fst snd].
    rewrite change_of_total by (done || lia). cbv zeta.
    unfold delta, at_, d. cbn [fst snd]. split; [f_equal|]; lia. }
  split_and!.
  - intros n m. rewrite elem_of_scan_pairs. lia.
  - apply NoDup_scan_pairs.
  - intros c Hc. by apply Hdelta.
  - destruct (_improve_traced_exhaustive edges tour Hv) as (r & Hlog & Hr).
    exists r. split; [|done]. unfold size. rewrite Hlog. do 2 f_equal.
    apply list_fmap_ext. intros i c Hc. f_equal.
    apply Hdelta. by eapply list_elem_of_lookup_2.
  - intros. apply _improve_traced_erase.
Qed.

Lemma exhaustive_scan_candidates_witness :
  valid_tour cross start = true ∧ NoDup (scan_pairs 4).
Proof.
  assert (H0 : valid_tour cross start = true) by reflexivity.
  destruct (exhaustive_scan_candidates cross start H0) as (_ & Hnd & _).
  split; [exact H0|exact Hnd].
Defined.

(** C1, counterexample.  [tenths] is a symmetric matrix of binary64
    numbers.  On the tour [0,1,2,3] the scan returns, in both modes, the pair
    (0, 2): the change computed for it is [(0.3 + 0.6) - (0.1 + 0.8)], which
    rounding makes [- 2^-53].  The loop applies the move and stops at
    [0,2,1,3], and [pathCost] goes from 1.7 to the next number above 1.7:
    the cost computed for the new tour is not below that of the old one. *)
Lemma rounded_move_raises_cost :
  (∀ i j, i ∈ tour4 → j ∈ tour4 →
     Generic.dist tenths i j = Generic.dist tenths j i)
  ∧ Generic._improve tenths false tour4 4 = Ok (Some (0, 2), minus_half_ulp)
  ∧ Generic._improve tenths true tour4 4 = Ok (Some (0, 2), minus_half_ulp)
  ∧ Generic.change_of tenths tour4 0 2 = Ok minus_half_ulp
  ∧ PrimFloat.ltb minus_half_ulp PrimFloat.zero = true
  ∧ swap tour4 (0 + 1) 2 = [0; 2; 1; 3]
  ∧ Generic._optimise_loop tenths false 2 minus_one tour4 4 = Ok [0; 2; 1; 3]
  ∧ Generic._optimise_loop tenths true 2 minus_one tour4 4 = Ok [0; 2; 1; 3]
  ∧ Generic.pathCost tenths tour4 = Ok cost_1_7
  ∧ Generic.pathCost tenths [0; 2; 1; 3] = Ok cost_1_7_next
  ∧ PrimFloat.ltb cost_1_7_next cost_1_7 = false
  ∧ PrimFloat.ltb cost_1_7 cost_1_7_next = true.
Proof.
  split_and!; try (vm_compute; reflexivity).
  intros i j Hi Hj. unfold tour4 in *.
  repeat (apply elem_of_cons in Hi as [->|Hi]);
    repeat (apply elem_of_cons in Hj as [->|Hj]);
    try (vm_compute; reflexivity);
    by (apply elem_of_nil in Hi || apply elem_of_nil in Hj).
Qed.

(** C1, amended.  Three parts.
    - Whatever the kind of number in the matrix, and whatever the matrix: a
      pair returned by [_improve] is a scanned pair and the change returned
      with it is the one computed for it, and the loop applies the move only
      if that change is below [0]; otherwise it returns the tour it has.  A
      change equal to [0] is never accepted.
    - Over a matrix of integers, whatever its entries: the change returned
      with a pair is negative, and the loop then applies the move; without a
      pair the change is [0] and the loop returns the tour it has.
    - Over a matrix of integers that is defined and symmetric on the nodes of
      the tour: reversing the sub-range [n+1, m] for a candidate pair
      [(n, m)] changes the cycle cost computed by [pathCost] by exactly the
      change of the pair, and the move for a pair returned by [_improve]
      gives a tour that [pathCost] finds strictly cheaper. *)
Theorem accepted_move_lowers_cost :
  (∀ A (N : Generic.Number A) (edges : list (list A)) fast (tour : list Z)
     size saved δ,
     Generic._improve edges fast tour size = Ok (saved, δ) →
     ((saved = None ∧ δ = Generic.num_zero)
      ∨ ∃ n m, saved = Some (n, m) ∧ (n, m) ∈ scan_pairs size
               ∧ Generic.change_of edges tour n m = Ok δ)
     ∧ ∀ fuel bc, Generic.num_ltb bc Generic.num_zero = true →
         Generic._optimise_loop edges fast (S fuel) bc tour size =
           if Generic.num_ltb δ Generic.num_zero then
             match saved with
             | Some (n, m) =>
                 Generic._optimise_loop edges fast fuel δ
                   (swap tour (n + 1) m) size
             | None => Raise TypeError
             end
           else Ok tour)
  ∧ (∀ (edges : list (list Z)) fast (tour : list Z) size saved δ,
       _improve edges fast tour size = Ok (saved, δ) →
       match saved with
       | Some (n, m) =>
           δ < 0 ∧ (n, m) ∈ scan_pairs size
           ∧ change_of edges tour n m = Ok δ
           ∧ ∀ fuel bc, bc < 0 →
               _optimise_loop edges fast (S fuel) bc tour size =
               _optimise_loop edges fast fuel δ (swap tour (n + 1) m) size
       | None =>
           δ = 0
           ∧ ∀ fuel bc, bc < 0 →
               _optimise_loop edges fast (S fuel) bc tour size = Ok tour
       end)
  ∧ (∀ (edges : list (list Z)) (tour : list Z),
       valid_tour edges tour = true → symmetric_on edges tour = true →
       let size := Z.of_nat (length tour) in
       (∀ n m, (n, m) ∈ scan_pairs size →
          ∃ c δ, pathCost edges tour = Ok c ∧ change_of edges tour n m = Ok δ
                 ∧ pathCost edges (swap tour (n + 1) m) = Ok (c + δ))
       ∧ (∀ fast n m δ,
            _improve edges fast tour size = Ok (Some (n, m), δ) →
            ∃ c c', pathCost edges tour = Ok c
                    ∧ pathCost edges (swap tour (n + 1) m) = Ok c'
                    ∧ c' = c + δ ∧ c' < c)).
Proof.
  split_and!.
  - intros A N edges fast tour size saved δ Himp. split.
    + by apply (generic_improve_sound edges fast).
    + intros fuel bc Hbc. by apply generic_loop_step.
  - intros edges fast tour size saved δ Himp.
    destruct (_improve_sound _ _ _ _ _ _ Himp)
      as [[-> ->]|(n & m & -> & Hc & Hch & Hlt)].
    + split; [done|]. intros fuel bc Hbc.
      rewrite _optimise_loop_step, Himp by done. py_simpl. cbn.
      by apply _optimise_loop_done.
    + split_and!; [done..|]. intros fuel bc Hbc.
      rewrite _optimise_loop_step, Himp by done. py_simpl.
      by destruct (Z.ltb_spec δ 0); [|lia].
  - intros edges tour Hv Hs size.
    assert (Hmove : ∀ n m, (n, m) ∈ scan_pairs size →
      ∃ c δ, pathCost edges tour = Ok c ∧ change_of edges tour n m = Ok δ
             ∧ pathCost edges (swap tour (n + 1) m) = Ok (c + δ)).
    { intros n m Hc. apply elem_of_scan_pairs in Hc as Hr.
      destruct (scan_move_Permutation tour n m Hc) as [Hperm Hlen].
      assert (tour ≠ []) by (intros ->; simpl in *; lia).
      exists (cycle_cost (dist_total edges) tour), (delta_at edges tour (n, m)).
      split_and!.
      - by apply pathCost_total.
      - by apply (scan_change_ok edges tour (n, m)).
      - rewrite <- move_cost by (done || lia). apply pathCost_total.
        + by apply (Permutation_nonempty _ tour).
        + apply (valid_tour_Permutation edges tour); [|done]. by symmetry. }
    split; [done|]. intros fast n m δ Himp.
    destruct (_improve_sound _ _ _ _ _ _ Himp)
      as [[? _]|(n' & m' & Heq & Hc & Hch & Hlt)]; [done|].
    injection Heq as <- <-.
    destruct (Hmove n m Hc) as (c & δ' & Hcost & Hch' & Hnew).
    assert (δ' = δ) as -> by congruence.
    exists c, (c + δ). split_and!; [done..|lia].
Qed.

Lemma accepted_move_lowers_cost_witness :
  valid_tour cross start = true ∧ symmetric_on cross start = true
  ∧ _improve cross false start 4 = Ok (Some (0, 2), -2)
  ∧ ∃ c c', pathCost cross start = Ok c
            ∧ pathCost cross (swap start (0 + 1) 2) = Ok c'
            ∧ c' = c + -2 ∧ c' < c.
Proof.
  assert (H0 : valid_tour cross start = true) by reflexivity.
  assert (H1 : symmetric_on cross start = true) by reflexivity.
  assert (H2 : _improve cross false start 4 = Ok (Some (0, 2), -2))
    by reflexivity.
  destruct accepted_move_lowers_cost as (_ & _ & Hcost).
  destruct (Hcost cross start H0 H1) as (_ & Hdrop).
  split_and!; [exact H0|exact H1|exact H2|].
  exact (Hdrop false 0 2 (-2) H2).
Defined.



(** C8. For every node subset [solution], [update] sets [heuristic_path] to
    the nodes of [initial_path] that are in [solution], in the order of
    [initial_path] (a subsequence of it), and sets [heuristic_cost] to the
    [pathCost] of that path whenever [pathCost] is defined on it; it leaves
    the route cache and [initial_path] alone and does not go through the
    optimizer, which is not among its arguments.  With [initial_path]
    [0..12], [update([2..12])] gives [heuristic_path = [2..12]], whatever the
    matrix. *)
Theorem update_projects_initial_path edges (solution : list Z) (w : world) :
  let p := filter (λ i, contains solution i = true) (initial_path (self w)) in
  let r := (update edges solution w).1 in
  let w' := (update edges solution w).2 in
  heuristic_path (self w') = p
  ∧ p `sublist_of` initial_path (self w)
  ∧ (∀ x, x ∈ p ↔ x ∈ initial_path (self w) ∧ x ∈ solution)
  ∧ r = (c ← pathCost edges p; Ok ())
  ∧ (∀ c, pathCost edges p = Ok c → r = Ok () ∧ heuristic_cost (self w') = c)
  ∧ routes w' = routes w
  ∧ initial_path (self w') = initial_path (self w)
  ∧ ∀ table quick c0 hp hc,
      heuristic_path
        (self (update edges (seqZ 2 11)
                 (World table
                    (Instance (seqZ 0 13) quick (seqZ 0 13) c0 hp hc))).2)
      = seqZ 2 11.
Proof.
  intros p r w'. subst r w'. rewrite (update_run edges solution w).
  cbv zeta. fold p. split_and!.
  - by destruct (pathCost edges p).
  - apply sublist_filter.
  - intros x. unfold p. rewrite list_elem_of_filter. unfold contains.
    rewrite bool_decide_eq_true. tauto.
  - by destruct (pathCost edges p).
  - intros c ->. done.
  - by destruct (pathCost edges p).
  - by destruct (pathCost edges p).
  - intros. rewrite update_run. cbv zeta.
    by destruct (pathCost edges _).
Qed.

Lemma update_projects_initial_path_witness :
  pathCost cross [2; 3] = Ok 4
  ∧ heuristic_cost (self (update cross [3; 2] doctest_world).2) = 4.
Proof.
  assert (H0 : pathCost cross [2; 3] = Ok 4) by reflexivity.
  destruct (update_projects_initial_path cross [3; 2] doctest_world)
    as (_ & _ & _ & _ & Hcost & _).
  split; [exact H0|]. apply (Hcost 4 H0).
Defined.

(** C9, counterexample.  On the doctest instance, whose heuristic path is
    [0,2,1,3], [update([])] raises IndexError and leaves the instance with an
    empty [heuristic_path]. *)
Lemma update_failure_changes_path :
  (update cross [] doctest_world).1 = Raise IndexError
  ∧ heuristic_path (self doctest_world) = [0; 2; 1; 3]
  ∧ heuristic_path (self (update cross [] doctest_world).2) = []
  ∧ heuristic_path (self (update cross [] doctest_world).2)
    ≠ heuristic_path (self doctest_world).
Proof. split_and!; reflexivity || discriminate. Qed.

(** C9, amended.  [pathCost] of a zero-length tour raises IndexError instead
    of returning 0, and [update] raises it whenever the projected path is
    empty.  When [update] raises, the exception is the one [pathCost] raised
    on the projected path, [heuristic_cost], the route cache and the other
    attributes are as they were before the call, and [heuristic_path] is the
    projected path. *)
Theorem update_failure_state :
  (∀ edges, pathCost edges [] = Raise IndexError)
  ∧ (∀ edges solution w,
       filter (λ i, contains solution i = true) (initial_path (self w)) = [] →
       (update edges solution w).1 = Raise IndexError)
  ∧ (∀ edges solution w e,
       (update edges solution w).1 = Raise e →
       let w' := (update edges solution w).2 in
       pathCost edges (heuristic_path (self w')) = Raise e
       ∧ heuristic_path (self w')
         = filter (λ i, contains solution i = true) (initial_path (self w))
       ∧ heuristic_cost (self w') = heuristic_cost (self w)
       ∧ routes w' = routes w
       ∧ nodes (self w') = nodes (self w)
       ∧ fast (self w') = fast (self w)
       ∧ initial_path (self w') = initial_path (self w)
       ∧ initial_cost (self w') = initial_cost (self w)).
Proof.
  split_and!.
  - intros. apply pathCost_nil.
  - intros edges solution w Hp. rewrite update_run. cbv zeta. by rewrite Hp.
  - intros edges solution w e. rewrite update_run. cbv zeta.
    destruct (pathCost edges _) as [c| |] eqn:Hcost; [done| |done].
    intros [= ->]. by cbn.
Qed.

Lemma update_failure_state_witness :
  (update cross [] doctest_world).1 = Raise IndexError
  ∧ heuristic_cost (self (update cross [] doctest_world).2) = 10.
Proof.
  assert (H0 : (update cross [] doctest_world).1 = Raise IndexError)
    by reflexivity.
  destruct update_failure_state as (_ & _ & Hstate).
  destruct (Hstate cross [] doctest_world IndexError H0) as (_ & _ & Hc & _).
  split; [exact H0|]. rewrite Hc. reflexivity.
Defined.

(** C7. The key [optimise] computes from the heuristic path is the same for
    any two orderings of the same nodes.  When the route cache holds the key,
    [optimise] adopts the cached path and cost and returns them, whatever the
    search engine is (the engine is not run).  Otherwise [optimise] runs the
    engine and returns the heuristic path and cost it leaves; when the engine
    is [TwoOpt._optimise] and returns, the path it leaves is a rearrangement
    of the starting one on which a scan finds nothing, the cost is its
    [pathCost], both are in the instance and in the cache under the key of
    the starting path, and [optimise] on any other ordering of these nodes
    then returns the same pair from the cache.  Over a matrix defined and
    symmetric on the nodes of a non-empty heuristic path the engine does
    return. *)
Theorem optimise_cache_policy :
  (∀ p q, p ≡ₚ q → route_key p = route_key q)
  ∧ (∀ engine w saved,
       routes w !! route_key (heuristic_path (self w)) = Some saved →
       optimise engine w =
         (Ok (path saved, cost saved),
          set_heuristic_cost (cost saved) (set_heuristic_path (path saved) w)))
  ∧ (∀ engine w,
       routes w !! route_key (heuristic_path (self w)) = None →
       optimise engine w =
         match engine w with
         | (Ok _, w') =>
             (Ok (heuristic_path (self w'), heuristic_cost (self w')), w')
         | (Raise e, w') => (Raise e, w')
         | (OutOfFuel, w') => (OutOfFuel, w')
         end)
  ∧ (∀ edges fuel w w',
       routes w !! route_key (heuristic_path (self w)) = None →
       _optimise edges fuel w = (Ok (), w') →
       ∃ p' c',
         p' ≡ₚ heuristic_path (self w)
         ∧ _improve edges (fast (self w)) p' (Z.of_nat (length p'))
           = Ok (None, 0)
         ∧ pathCost edges p' = Ok c'
         ∧ optimise (_optimise edges fuel) w = (Ok (p', c'), w')
         ∧ heuristic_path (self w') = p'
         ∧ heuristic_cost (self w') = c'
         ∧ routes w'
           = <[route_key (heuristic_path (self w)) := Route p' c']> (routes w)
         ∧ ∀ q engine, q ≡ₚ heuristic_path (self w) →
             optimise engine (set_heuristic_path q w') = (Ok (p', c'), w'))
  ∧ (∀ edges w,
       heuristic_path (self w) ≠ [] →
       valid_tour edges (heuristic_path (self w)) = true →
       symmetric_on edges (heuristic_path (self w)) = true →
       ∃ w', ∀ fuel, (fuel_bound edges (heuristic_path (self w)) ≤ fuel)%nat →
         _optimise edges fuel w = (Ok (), w')).
Proof.
  split_and!.
  - apply route_key_Permutation.
  - apply optimise_hit.
  - apply optimise_miss.
  - intros edges fuel w w' Hmiss Hrun.
    destruct (_optimise_effect edges fuel w w' Hrun)
      as (p' & c' & Hperm & Hopt & Hcost & ->).
    exists p', c'. split_and!; try done.
    + by rewrite optimise_miss, Hrun.
    + intros q engine Hq. rewrite (optimise_hit engine _ (Route p' c')).
      * by destruct w as [table []].
      * cbn. rewrite (route_key_Permutation _ _ Hq). apply lookup_insert_eq.
  - intros edges w. apply _optimise_returns.
Qed.

Lemma optimise_cache_policy_witness :
  routes doctest_world !! route_key (heuristic_path (self doctest_world)) = None
  ∧ ∃ p' c',
      optimise (_optimise cross 3) doctest_world
      = (Ok (p', c'), (_optimise cross 3 doctest_world).2)
      ∧ pathCost cross p' = Ok c'.
Proof.
  assert (H0 : routes doctest_world
               !! route_key (heuristic_path (self doctest_world)) = None)
    by reflexivity.
  assert (H1 : _optimise cross 3 doctest_world
               = (Ok (), (_optimise cross 3 doctest_world).2))
    by (vm_compute; reflexivity).
  destruct optimise_cache_policy as (_ & _ & _ & Hengine & _).
  destruct (Hengine cross 3%nat doctest_world _ H0 H1)
    as (p' & c' & _ & _ & Hcost & Hopt & _).
  split; [exact H0|]. exists p', c'. split; [exact Hopt|exact Hcost].
Defined.

(** C10. With indices in range [swap] returns a rearrangement of its input,
    of the same length.  Hence, whatever the matrix, the mode and the number
    of moves the loop applies, a tour returned by the loop of
    [TwoOpt._optimise] is a rearrangement of the tour it started from, and
    when [_optimise] returns, the heuristic path it leaves, which is also the
    path it stores in the cache, is a rearrangement of the heuristic path it
    started from. *)
Theorem engine_preserves_nodes :
  (∀ (A : Type) (l : list A) (i j : Z),
     0 ≤ i → i ≤ j → j < Z.of_nat (length l) →
     swap l i j ≡ₚ l ∧ length (swap l i j) = length l)
  ∧ (∀ edges fast fuel bc (p p' : list Z),
       _optimise_loop edges fast fuel bc p (Z.of_nat (length p)) = Ok p' →
       p' ≡ₚ p)
  ∧ (∀ edges fuel w w',
       _optimise edges fuel w = (Ok (), w') →
       heuristic_path (self w') ≡ₚ heuristic_path (self w)
       ∧ ∃ c, routes w' !! route_key (heuristic_path (self w))
              = Some (Route (heuristic_path (self w')) c)).
Proof.
  split_and!.
  - intros A l i j Hi Hij Hj.
    split; [apply swap_Permutation|apply swap_length]; lia.
  - intros edges fast fuel bc p p' Hrun.
    by apply _optimise_loop_sound in Hrun as [? _].
  - intros edges fuel w w' Hrun.
    destruct (_optimise_effect edges fuel w w' Hrun)
      as (p' & c' & Hperm & _ & _ & ->).
    split; [done|]. exists c'. cbn. apply lookup_insert_eq.
Qed.

Lemma engine_preserves_nodes_witness :
  _optimise_loop cross false 3 (-1) start (Z.of_nat (length start))
  = Ok [0; 1; 2; 3]
  ∧ [0; 1; 2; 3] ≡ₚ start.
Proof.
  assert (H0 : _optimise_loop cross false 3 (-1) start
                 (Z.of_nat (length start)) = Ok [0; 1; 2; 3])
    by reflexivity.
  destruct engine_preserves_nodes as (_ & Hloop & _).
  split; [exact H0|]. exact (Hloop cross false 3%nat (-1) start _ H0).
Defined.

(** * Further properties of the code *)

(** ** [swap] *)

(** X1. Reversing the same in-range segment twice gives the list back. *)
Theorem swap_involutive {A} (l : list A) (i j : Z) :
  0 ≤ i → i ≤ j + 1 → j < Z.of_nat (length l) →
  swap (swap l i j) i j = l.
Proof.
  intros Hi Hij Hj.
  pose proof (swap_length l i j Hi Hij Hj) as Hlen.
  apply list_eq. intros k.
  destruct (decide (Z.of_nat k < i ∨ j < Z.of_nat k)) as [Hout|Hin].
  - rewrite swap_lookup_outside by (rewrite ?Hlen; done).
    by apply swap_lookup_outside.
  - rewrite swap_lookup_inside by (rewrite ?Hlen; lia).
    rewrite swap_lookup_inside by lia. f_equal. lia.
Qed.

Lemma swap_involutive_witness :
  0 ≤ 1 ∧ 1 ≤ 3 + 1 ∧ 3 < Z.of_nat (length tour5)
  ∧ swap (swap tour5 1 3) 1 3 = tour5.
Proof.
  assert (H0 : 0 ≤ 1) by lia.
  assert (H1 : 1 ≤ 3 + 1) by lia.
  assert (H2 : 3 < Z.of_nat (length tour5)) by (vm_compute; reflexivity).
  split_and!; [exact H0|exact H1|exact H2|].
  exact (swap_involutive tour5 1 3 H0 H1 H2).
Defined.

(** X2. Over the whole list [swap] is [reversed]; over a single position it
    changes nothing. *)
Theorem swap_whole_and_single {A} (l : list A) :
  swap l 0 (Z.of_nat (length l) - 1) = reverse l
  ∧ ∀ i, 0 ≤ i → i < Z.of_nat (length l) → swap l i i = l.
Proof.
  split.
  - rewrite swap_in_range by lia.
    replace (Z.to_nat (Z.of_nat (length l) - 1 + 1)) with (length l) by lia.
    change (Z.to_nat 0) with 0%nat.
    rewrite Nat.sub_0_r, drop_0, take_0, firstn_all, drop_all.
    by rewrite app_nil_r.
  - intros i Hi Hlen. apply list_eq. intros k.
    destruct (decide (Z.of_nat k < i ∨ i < Z.of_nat k)) as [Hout|Hin].
    + apply swap_lookup_outside; lia || done.
    + rewrite swap_lookup_inside by lia. f_equal. lia.
Qed.

Lemma swap_whole_and_single_witness :
  0 ≤ 2 ∧ 2 < Z.of_nat (length tour5) ∧ swap tour5 2 2 = tour5.
Proof.
  assert (H0 : 0 ≤ 2) by lia.
  assert (H1 : 2 < Z.of_nat (length tour5)) by (vm_compute; reflexivity).
  destruct (swap_whole_and_single tour5) as [_ Hsingle].
  split_and!; [exact H0|exact H1|exact (Hsingle 2 H0 H1)].
Defined.

(** X3. [swap] does not check the order of its indices: with [j + 1 ≤ i]
    nothing is reversed and the result is [path[:i] + path[j + 1:]], which
    repeats the elements at positions [j + 1 .. i - 1] and is longer than the
    input by [i - (j + 1)]. *)
Theorem swap_crossed_indices {A} (l : list A) (i j : Z) :
  0 ≤ j + 1 → j + 1 ≤ i → i ≤ Z.of_nat (length l) →
  swap l i j = take (Z.to_nat i) l ++ drop (Z.to_nat (j + 1)) l
  ∧ Z.of_nat (length (swap l i j)) = Z.of_nat (length l) + (i - (j + 1)).
Proof.
  intros Hj Hji Hi.
  assert (Heq : swap l i j
                = take (Z.to_nat i) l ++ drop (Z.to_nat (j + 1)) l).
  { unfold swap, slice. cbn [from_option].
    rewrite !slice_index_in by lia.
    replace (Z.to_nat (j + 1) - Z.to_nat i)%nat with 0%nat by lia.
    rewrite Nat.sub_0_r, drop_0, take_0. cbn [reverse app].
    f_equal. apply take_ge. rewrite length_drop. lia. }
  split; [done|]. rewrite Heq, length_app, length_take, length_drop. lia.
Qed.

Lemma swap_crossed_indices_witness :
  0 ≤ 0 + 1 ∧ 0 + 1 ≤ 3 ∧ 3 ≤ Z.of_nat (length tour5)
  ∧ swap tour5 3 0 = [0; 1; 2; 1; 2; 3; 4].
Proof.
  assert (H0 : 0 ≤ 0 + 1) by lia.
  assert (H1 : 0 + 1 ≤ 3) by lia.
  assert (H2 : 3 ≤ Z.of_nat (length tour5)) by (cbn; lia).
  destruct (swap_crossed_indices tour5 3 0 H0 H1 H2) as [Heq _].
  split_and!; [exact H0|exact H1|exact H2|].
  rewrite Heq. reflexivity.
Defined.

(** ** [dist] and [pathCost] *)

Lemma getitem_in_range {A} (l : list A) (i : Z) :
  is_ok (getitem l i) = true
  ↔ - Z.of_nat (length l) ≤ i < Z.of_nat (length l).
Proof.
  unfold getitem.
  destruct (Z.ltb_spec i 0) as [Hneg|Hpos].
  - destruct (Z.ltb_spec (i + Z.of_nat (length l)) 0) as [?|?].
    { split; [done|lia]. }
    destruct (l !! Z.to_nat (i + Z.of_nat (length l))) as [x|] eqn:Hx.
    + apply lookup_lt_Some in Hx. split; [lia|done].
    + apply lookup_ge_None in Hx. split; [done|lia].
  - destruct (Z.ltb_spec i 0) as [?|_]; [lia|].
    destruct (l !! Z.to_nat i) as [x|] eqn:Hx.
    + apply lookup_lt_Some in Hx. split; [lia|done].
    + apply lookup_ge_None in Hx. split; [done|lia].
Qed.

Lemma getitem_from_end {A} (l : list A) (i : Z) :
  0 ≤ i → i < Z.of_nat (length l) →
  getitem l (i - Z.of_nat (length l)) = getitem l i.
Proof.
  intros Hi Hlen. unfold getitem.
  destruct (Z.ltb_spec (i - Z.of_nat (length l)) 0) as [_|?]; [|lia].
  replace (i - Z.of_nat (length l) + Z.of_nat (length l)) with i by lia.
  assert (E : (i <? 0) = false) by (apply Z.ltb_ge; lia).
  rewrite E. cbv iota. by rewrite E.
Qed.

Lemma getitem_cases {A} (l : list A) (i : Z) :
  getitem l i = Raise IndexError ∨ ∃ x, getitem l i = Ok x ∧ x ∈ l.
Proof.
  unfold getitem. destruct (_ <? 0); [by left|].
  destruct (l !! _) as [x|] eqn:Hx; [right|by left].
  exists x. split; [done|]. by eapply list_elem_of_lookup_2.
Qed.

Lemma dist_cases edges i j :
  dist edges i j = Raise IndexError ∨ ∃ v, dist edges i j = Ok v.
Proof.
  unfold dist. destruct (getitem_cases edges i) as [->|(row & -> & _)];
    [by left|]. py_simpl.
  destruct (getitem_cases row j) as [->|(v & -> & _)]; eauto.
Qed.

(** X4. On a square matrix [dist] answers exactly for identifiers in
    [-N, N): a negative identifier is not an error, it addresses the row or
    column counted from the end. *)
Theorem dist_index_range edges (i j : Z) :
  Forall (λ row, length row = length edges) edges →
  let N := Z.of_nat (length edges) in
  (is_ok (dist edges i j) = true ↔ (- N ≤ i < N) ∧ (- N ≤ j < N))
  ∧ (0 ≤ i → i < N → 0 ≤ j → j < N →
     dist edges (i - N) j = dist edges i j
     ∧ dist edges i (j - N) = dist edges i j).
Proof.
  intros Hsq N. rewrite Forall_forall in Hsq. split.
  - unfold dist. destruct (getitem_cases edges i) as [Hrow|(row & Hrow & Hin)].
    + pose proof (getitem_in_range edges i) as Hr. rewrite Hrow in *.
      py_simpl. cbn in *. split; [done|]. intros [? _]. by apply Hr.
    + pose proof (getitem_in_range edges i) as Hr. rewrite Hrow in *.
      py_simpl. rewrite getitem_in_range.
      rewrite (Hsq row) by done. fold N.
      cbn in Hr. split; [intros ?; split; [by apply Hr|done]|by intros [_ ?]].
  - unfold N. intros Hi HiN Hj HjN. unfold dist. split.
    + by rewrite getitem_from_end.
    + destruct (getitem_cases edges i) as [->|(row & -> & Hin)]; [done|].
      py_simpl.
      rewrite <- (Hsq row) by done.
      apply getitem_from_end; [done|].
      rewrite (Hsq row) by done. done.
Qed.

Lemma dist_index_range_witness :
  Forall (λ row, length row = length cross) cross
  ∧ dist cross (3 - 4) 1 = dist cross 3 1.
Proof.
  assert (H0 : Forall (λ row, length row = length cross) cross)
    by (repeat constructor).
  destruct (dist_index_range cross 3 1 H0) as [_ Halias].
  split; [exact H0|].
  apply Halias; cbn; lia.
Defined.

Lemma sum_outcomes_cases edges p acc :
  (sum_outcomes acc (edge_costs edges p)
     = Ok (acc + edge_sum (dist_total edges) p)
   ∧ Forall (λ x, is_ok x = true) (edge_costs edges p))
  ∨ (sum_outcomes acc (edge_costs edges p) = Raise IndexError
     ∧ ¬ Forall (λ x, is_ok x = true) (edge_costs edges p)).
Proof.
  revert acc. induction p as [|x [|y p] IH]; intros acc.
  - left. split; [simpl; f_equal; lia|constructor].
  - left. split; [simpl; f_equal; lia|constructor].
  - change (edge_costs edges (x :: y :: p))
      with (dist edges x y :: edge_costs edges (y :: p)).
    change (edge_sum (dist_total edges) (x :: y :: p))
      with (dist_total edges x y + edge_sum (dist_total edges) (y :: p)).
    cbn [sum_outcomes]. unfold dist_total at 1.
    destruct (dist_cases edges x y) as [->|[v ->]]; py_simpl.
    + right. split; [done|]. by inversion 1.
    + destruct (IH (acc + v)) as [[-> ?]|[-> Hbad]].
      * left. split; [f_equal; lia|by constructor].
      * right. split; [done|]. inversion 1; by subst.
Qed.

(** X5. [pathCost] either returns or raises IndexError.  It returns exactly
    when the tour is not empty and the matrix has the closing edge and every
    consecutive edge of the tour (other pairs of nodes are not read), and the
    value is then the sum of these edges. *)
Theorem pathCost_defined_iff edges (path : list Z) :
  (pathCost edges path = Raise IndexError ∨ ∃ c, pathCost edges path = Ok c)
  ∧ ((∃ c, pathCost edges path = Ok c)
     ↔ path ≠ []
       ∧ is_ok (dist edges (List.last path 0) (hd 0 path)) = true
       ∧ Forall (λ x, is_ok x = true) (edge_costs edges path))
  ∧ ∀ c, pathCost edges path = Ok c →
         c = cycle_cost (dist_total edges) path.
Proof.
  destruct path as [|x rest].
  { rewrite pathCost_nil. split_and!; [by left| |done].
    split; [by intros [? ?]|by intros [? _]]. }
  rewrite pathCost_cons, (last_default x rest x 0). unfold cycle_cost.
  rewrite (last_default x rest x 0). cbn [hd]. unfold dist_total at 1.
  destruct (dist_cases edges (List.last (x :: rest) 0) x) as [->|[v ->]];
    py_simpl.
  { split_and!; [by left| |done].
    split; [by intros [? ?]|by intros (_ & ? & _)]. }
  destruct (sum_outcomes_cases edges (x :: rest) v) as [[-> Hall]|[-> Hbad]].
  - split_and!; [right; eauto| |by intros c [= <-]].
    split; [done|eauto].
  - split_and!; [by left| |done].
    split; [by intros [? ?]|by intros (_ & _ & ?)].
Qed.

Lemma edge_sum_app_last d (l1 : list Z) y q :
  l1 ≠ [] →
  edge_sum d (l1 ++ y :: q) =
    edge_sum d l1 + d (List.last l1 0) y + edge_sum d (y :: q).
Proof.
  intros Hl1. destruct (exists_last Hl1) as (p & x & ->).
  rewrite last_last, <- (assoc_L (++)). apply edge_sum_app.
Qed.

Lemma cycle_cost_rotate d (l1 l2 : list Z) :
  cycle_cost d (l2 ++ l1) = cycle_cost d (l1 ++ l2).
Proof.
  destruct l1 as [|a l1]; [by rewrite app_nil_r|].
  destruct l2 as [|b l2]; [by rewrite app_nil_r|].
  rewrite !cycle_cost_alt by done.
  rewrite (last_app_cons (b :: l2) a l1), (last_app_cons (a :: l1) b l2).
  rewrite !edge_sum_app_last by done. cbn [app hd]. lia.
Qed.

(** X6. Over a matrix of integers, where costs are added exactly, the cost is
    the cost of the cycle: starting the same tour at another node does not
    change what [pathCost] returns.  (With binary64 entries it can:
    [rounded_cost_depends_on_order].) *)
Theorem pathCost_rotation edges (l1 l2 : list Z) :
  valid_tour edges (l1 ++ l2) = true →
  pathCost edges (l2 ++ l1) = pathCost edges (l1 ++ l2).
Proof.
  intros Hv. destruct (decide (l1 ++ l2 = [])) as [Hnil|Hne].
  { apply app_eq_nil in Hnil as [-> ->]. done. }
  assert (Hperm : l1 ++ l2 ≡ₚ l2 ++ l1) by apply Permutation_app_comm.
  rewrite !pathCost_total; try done.
  - by rewrite cycle_cost_rotate.
  - by apply (Permutation_nonempty _ (l1 ++ l2)).
  - by apply (valid_tour_Permutation edges (l1 ++ l2)).
Qed.

Lemma pathCost_rotation_witness :
  valid_tour cross ([0; 2] ++ [1; 3]) = true
  ∧ pathCost cross ([1; 3] ++ [0; 2]) = Ok 10.
Proof.
  assert (H0 : valid_tour cross ([0; 2] ++ [1; 3]) = true) by reflexivity.
  split; [exact H0|].
  rewrite (pathCost_rotation cross [0; 2] [1; 3] H0). reflexivity.
Defined.

Lemma last_reverse (p : list Z) : List.last (reverse p) 0 = hd 0 p.
Proof.
  destruct p as [|a p]; [done|]. by rewrite reverse_cons, last_last.
Qed.

Lemma hd_reverse (p : list Z) : hd 0 (reverse p) = List.last p 0.
Proof.
  destruct (decide (p = [])) as [->|Hp]; [done|].
  destruct (exists_last Hp) as (q & z & ->).
  by rewrite reverse_app, last_last.
Qed.

(** X7. Over a matrix of integers, where costs are added exactly, that is
    symmetric on the nodes of the tour, the tour travelled backwards costs
    the same.  (With binary64 entries it need not:
    [rounded_cost_depends_on_order].) *)
Theorem pathCost_reverse edges (path : list Z) :
  valid_tour edges path = true → symmetric_on edges path = true →
  pathCost edges (reverse path) = pathCost edges path.
Proof.
  intros Hv Hs. destruct (decide (path = [])) as [->|Hne]; [done|].
  assert (Hperm : reverse path ≡ₚ path) by apply reverse_Permutation.
  rewrite !pathCost_total; try done.
  - f_equal. rewrite !cycle_cost_alt; [|done|].
    2:{ by apply (Permutation_nonempty _ path). }
    rewrite last_reverse, hd_reverse, edge_sum_reverse.
    + f_equal. apply (symmetric_on_dist edges path); [done| |].
      * destruct path; [done|]. by left.
      * destruct path as [|x rest]; [done|].
        rewrite (last_default x rest 0 x). apply last_elem_of.
    + intros a b ? ?. by apply (symmetric_on_dist edges path).
  - by apply (Permutation_nonempty _ path).
  - apply (valid_tour_Permutation edges path); [by symmetry|done].
Qed.

Lemma pathCost_reverse_witness :
  valid_tour cross start = true ∧ symmetric_on cross start = true
  ∧ pathCost cross (reverse start) = Ok 10.
Proof.
  assert (H0 : valid_tour cross start = true) by reflexivity.
  assert (H1 : symmetric_on cross start = true) by reflexivity.
  split_and!; [exact H0|exact H1|].
  rewrite (pathCost_reverse cross start H0 H1). reflexivity.
Defined.

(** ** The scan and the search loop *)

Lemma scan_pairs_small size : size ≤ 3 → scan_pairs size = [].
Proof.
  intros Hsize. destruct (scan_pairs size) as [|[n m] cs] eqn:E; [done|].
  assert (Hc : (n, m) ∈ scan_pairs size) by (rewrite E; by left).
  apply elem_of_scan_pairs in Hc. lia.
Qed.

(** X8. A tour of at most three nodes has no candidate: the scan returns no
    pair without reading the tour or the matrix, and the search loop returns
    the tour as it is, for any matrix and in both modes. *)
Theorem small_tour_untouched edges fast (path : list Z) :
  (∀ size, size ≤ 3 → _improve edges fast path size = Ok (None, 0))
  ∧ ((length path ≤ 3)%nat →
     ∀ fuel, _optimise_loop edges fast (S fuel) (-1) path
               (Z.of_nat (length path)) = Ok path).
Proof.
  assert (Hscan : ∀ size, size ≤ 3 →
            _improve edges fast path size = Ok (None, 0)).
  { intros size Hsize. rewrite _improve_flat, scan_pairs_small by done.
    reflexivity. }
  split; [done|]. intros Hlen fuel.
  rewrite _optimise_loop_step, Hscan by lia. py_simpl. cbn.
  by apply _optimise_loop_done.
Qed.

Lemma small_tour_untouched_witness :
  (length [2; 0; 1] ≤ 3)%nat
  ∧ _optimise_loop [] true 1 (-1) [2; 0; 1] (Z.of_nat (length [2; 0; 1]))
    = Ok [2; 0; 1].
Proof.
  assert (H0 : (length [2; 0; 1] ≤ 3)%nat) by (cbn; lia).
  destruct (small_tour_untouched [] true [2; 0; 1]) as [_ Hloop].
  split; [exact H0|exact (Hloop H0 0%nat)].
Defined.

Lemma scan_move_endpoints (p : list Z) n m :
  (n, m) ∈ scan_pairs (Z.of_nat (length p)) →
  swap p (n + 1) m !! 0%nat = p !! 0%nat
  ∧ swap p (n + 1) m !! (length p - 1)%nat = p !! (length p - 1)%nat.
Proof.
  intros Hc%elem_of_scan_pairs.
  split; apply swap_lookup_outside; lia.
Qed.

(** X9. The search never moves the first or the last node of the tour: every
    reversal lies strictly between them, so a tour returned by the loop
    starts and ends like the tour it was given and has its length. *)
Theorem search_keeps_endpoints edges fast fuel bc (p p' : list Z) :
  _optimise_loop edges fast fuel bc p (Z.of_nat (length p)) = Ok p' →
  length p' = length p
  ∧ p' !! 0%nat = p !! 0%nat
  ∧ p' !! (length p - 1)%nat = p !! (length p - 1)%nat.
Proof.
  revert bc p. induction fuel as [|fuel IH]; intros bc p.
  { cbn [_optimise_loop]. destruct (Z.ltb_spec bc 0); [done|].
    by intros [= <-]. }
  destruct (Z.ltb_spec bc 0) as [Hneg|Hpos].
  2:{ rewrite _optimise_loop_done by done. by intros [= <-]. }
  rewrite _optimise_loop_step by done.
  destruct (_improve edges fast p _) as [[saved bc']| |] eqn:Himp;
    py_simpl; [|done..].
  apply _improve_sound in Himp as Hcase.
  destruct Hcase as [[-> ->]|(n & m & -> & Hc & _ & Hlt)].
  - cbn. rewrite _optimise_loop_done by done. by intros [= <-].
  - destruct (Z.ltb_spec bc' 0); [|lia].
    destruct (scan_move_Permutation p n m Hc) as [_ Hlen].
    destruct (scan_move_endpoints p n m Hc) as [Hfirst Hlast].
    rewrite <- Hlen. intros Hrun. apply IH in Hrun as (Hl & Hf & Hla).
    rewrite Hlen in *. by rewrite Hl, Hf, Hla.
Qed.

Lemma search_keeps_endpoints_witness :
  _optimise_loop cross false 2 (-1) start (Z.of_nat (length start))
  = Ok [0; 1; 2; 3]
  ∧ [0; 1; 2; 3] !! 0%nat = start !! 0%nat.
Proof.
  assert (H0 : _optimise_loop cross false 2 (-1) start
                 (Z.of_nat (length start)) = Ok [0; 1; 2; 3])
    by reflexivity.
  destruct (search_keeps_endpoints cross false 2 (-1) start _ H0)
    as (_ & Hfirst & _).
  split; [exact H0|exact Hfirst].
Defined.

(** X10. Each mode finds a move exactly when the other does, and the change
    of the move the exhaustive scan returns is at most the change of the move
    the fast scan returns. *)
Theorem scan_modes_agree edges (tour : list Z) :
  valid_tour edges tour = true →
  let size := Z.of_nat (length tour) in
  (_improve edges true tour size = Ok (None, 0)
   ↔ _improve edges false tour size = Ok (None, 0))
  ∧ ∀ c1 δ1 c2 δ2,
      _improve edges true tour size = Ok (Some c1, δ1) →
      _improve edges false tour size = Ok (Some c2, δ2) →
      δ2 ≤ δ1 ∧ δ1 < 0.
Proof.
  intros Hv size.
  destruct (_improve_fast edges tour Hv)
    as [[Hall1 Hf]|(pre1 & c & post1 & Hcs1 & Hneg1 & _ & Hf)];
  destruct (_improve_exhaustive edges tour Hv)
    as [[Hall2 He]|(pre2 & b & post2 & Hcs2 & Hneg2 & Hpre & Hpost & He)];
  fold size in Hf, He; rewrite Hf, He.
  - split; [done|]. by intros.
  - exfalso. rewrite Hcs2, Forall_app, Forall_cons in Hall1.
    destruct Hall1 as (_ & ? & _). lia.
  - exfalso. rewrite Hcs1, Forall_app, Forall_cons in Hall2.
    destruct Hall2 as (_ & ? & _). lia.
  - split; [split; by intros [=]|].
    intros c1 δ1 c2 δ2 [= <- <-] [= <- <-]. split; [|done].
    assert (Hin : c ∈ pre2 ++ b :: post2)
      by (rewrite <- Hcs2, Hcs1; set_solver by eauto).
    rewrite Forall_forall in Hpre, Hpost.
    apply elem_of_app in Hin as [Hin|Hin].
    + specialize (Hpre c Hin). lia.
    + apply elem_of_cons in Hin as [->|Hin]; [lia|].
      by apply Hpost.
Qed.

Lemma scan_modes_agree_witness :
  valid_tour cross [0; 1; 2; 3] = true
  ∧ _improve cross true [0; 1; 2; 3] 4 = Ok (None, 0).
Proof.
  assert (H0 : valid_tour cross [0; 1; 2; 3] = true) by reflexivity.
  destruct (scan_modes_agree cross [0; 1; 2; 3] H0) as [Hiff _].
  split; [exact H0|]. apply Hiff. reflexivity.
Defined.

Lemma lookup_total_eq (p q : list Z) (a b : nat) :
  q !! a = p !! b → q !!! a = p !!! b.
Proof. intros H. by rewrite !list_lookup_total_alt, H. Qed.

(** X11. Undoing a move costs what the move gained: in the tour obtained by
    applying a candidate pair, the same pair has the opposite change.  This
    needs no symmetry of the matrix. *)
Theorem applied_move_has_opposite_change edges (tour : list Z) (n m : Z) :
  valid_tour edges tour = true →
  (n, m) ∈ scan_pairs (Z.of_nat (length tour)) →
  ∃ δ, change_of edges tour n m = Ok δ
       ∧ change_of edges (swap tour (n + 1) m) n m = Ok (- δ).
Proof.
  intros Hv Hc. apply elem_of_scan_pairs in Hc as Hr.
  destruct (scan_move_Permutation tour n m Hc) as [Hperm Hlen].
  assert (Hv' : valid_tour edges (swap tour (n + 1) m) = true).
  { apply (valid_tour_Permutation edges tour); [by symmetry|done]. }
  eexists. split; [apply change_of_total; done || lia|].
  rewrite change_of_total by (rewrite ?Hlen; done || lia). cbv zeta.
  rewrite (lookup_total_eq tour (swap tour (n + 1) m)
             (Z.to_nat n) (Z.to_nat n))
    by (apply swap_lookup_outside; lia).
  rewrite (lookup_total_eq tour (swap tour (n + 1) m)
             (Z.to_nat (m + 1)) (Z.to_nat (m + 1)))
    by (apply swap_lookup_outside; lia).
  rewrite (lookup_total_eq tour (swap tour (n + 1) m)
             (Z.to_nat (n + 1)) (Z.to_nat m)).
  2:{ rewrite swap_lookup_inside by lia. f_equal. lia. }
  rewrite (lookup_total_eq tour (swap tour (n + 1) m)
             (Z.to_nat m) (Z.to_nat (n + 1))).
  2:{ rewrite swap_lookup_inside by lia. f_equal. lia. }
  f_equal. lia.
Qed.

Lemma applied_move_has_opposite_change_witness :
  valid_tour skewed tour5 = true
  ∧ ∃ δ, change_of skewed tour5 0 3 = Ok δ
         ∧ change_of skewed (swap tour5 (0 + 1) 3) 0 3 = Ok (- δ).
Proof.
  assert (H0 : valid_tour skewed tour5 = true) by reflexivity.
  split; [exact H0|].
  apply (applied_move_has_opposite_change skewed tour5 0 3 H0).
  vm_compute. right. left.
Defined.

(** ** [TwoOpt._optimise] as a method *)

(** X12. Running the engine again on its own result changes nothing: after
    [_optimise] has returned, a second run returns after a single scan and
    leaves the instance and the cache exactly as they are. *)
Theorem engine_idempotent edges fuel (w w' : world) :
  _optimise edges fuel w = (Ok (), w') →
  ∀ fuel', _optimise edges (S fuel') w' = (Ok (), w').
Proof.
  intros Hrun fuel'.
  destruct (_optimise_effect edges fuel w w' Hrun)
    as (p' & c' & Hperm & Hopt & Hcost & ->).
  rewrite _optimise_run. cbn [self set_route set_heuristic_cost
    set_heuristic_path heuristic_path fast].
  rewrite _optimise_loop_step, Hopt by lia. py_simpl. cbn [Z.ltb Z.compare].
  rewrite _optimise_loop_done by done. rewrite Hcost, save_run.
  f_equal. unfold set_route, set_heuristic_cost, set_heuristic_path.
  cbn [routes self nodes fast initial_path initial_cost heuristic_path
       heuristic_cost].
  rewrite (route_key_Permutation _ _ Hperm). by rewrite insert_insert_eq.
Qed.

Lemma engine_idempotent_witness :
  _optimise cross 2 doctest_world
  = (Ok (), (_optimise cross 2 doctest_world).2)
  ∧ _optimise cross 1 (_optimise cross 2 doctest_world).2
    = (Ok (), (_optimise cross 2 doctest_world).2).
Proof.
  assert (H0 : _optimise cross 2 doctest_world
               = (Ok (), (_optimise cross 2 doctest_world).2))
    by (vm_compute; reflexivity).
  split; [exact H0|].
  exact (engine_idempotent cross 2 doctest_world _ H0 0%nat).
Defined.

(** X13. [_optimise] writes nothing before its last statement: whenever it
    does not return normally (an exception of the scan or of [pathCost], or
    the loop still running at the bound), the instance and the cache are
    exactly as before the call. *)
Theorem engine_failure_leaves_state edges fuel (w : world) :
  (_optimise edges fuel w).1 ≠ Ok () → (_optimise edges fuel w).2 = w.
Proof.
  rewrite _optimise_run.
  destruct (_optimise_loop _ _ _ _ _ _) as [p'| |]; [|done..].
  destruct (pathCost edges p') as [c| |]; [|done..].
  rewrite save_run. by intros [].
Qed.

Lemma engine_failure_leaves_state_witness :
  (_optimise [] 1 doctest_world).1 ≠ Ok ()
  ∧ (_optimise [] 1 doctest_world).2 = doctest_world.
Proof.
  assert (H0 : (_optimise [] 1 doctest_world).1 ≠ Ok ())
    by (vm_compute; discriminate).
  split; [exact H0|].
  exact (engine_failure_leaves_state [] 1 doctest_world H0).
Defined.

(** ** [update], [__init__] and [save] *)

Lemma filter_all (P : Z → Prop) `{!∀ x, Decision (P x)} (l : list Z) :
  (∀ x, x ∈ l → P x) → filter P l = l.
Proof.
  induction l as [|x l IH]; intros Hall; [done|].
  rewrite filter_cons_True by (apply Hall; by left).
  f_equal. apply IH. intros y Hy. apply Hall. by right.
Qed.

(** X14. [update] starts from [initial_path] every time: its outcome does not
    depend on the heuristic path and cost the instance currently has, nor
    does the state it leaves when it returns; in particular a second
    [update] with the same subset changes nothing. *)
Theorem update_ignores_heuristic_state edges (solution : list Z) (w : world)
    (q : list Z) (c : Z) :
  let w0 := set_heuristic_cost c (set_heuristic_path q w) in
  (update edges solution w0).1 = (update edges solution w).1
  ∧ ((update edges solution w).1 = Ok () →
     (update edges solution w0).2 = (update edges solution w).2
     ∧ update edges solution (update edges solution w).2
       = update edges solution w).
Proof.
  cbv zeta. rewrite !update_run. cbv zeta.
  cbn [self set_heuristic_cost set_heuristic_path initial_path].
  destruct (pathCost edges _) as [c'| |] eqn:Hcost; [|done..].
  split; [done|]. intros _. split; [done|].
  cbn [snd self set_heuristic_cost set_heuristic_path initial_path].
  by rewrite Hcost.
Qed.

Lemma update_ignores_heuristic_state_witness :
  (update cross [1; 2; 3] doctest_world).1 = Ok ()
  ∧ update cross [1; 2; 3] (update cross [1; 2; 3] doctest_world).2
    = update cross [1; 2; 3] doctest_world.
Proof.
  assert (H0 : (update cross [1; 2; 3] doctest_world).1 = Ok ())
    by reflexivity.
  destruct (update_ignores_heuristic_state cross [1; 2; 3] doctest_world [] 0)
    as [_ Hok].
  split; [exact H0|]. exact (proj2 (Hok H0)).
Defined.

Lemma __init___ok edges nodes quick o :
  __init__ edges nodes quick = Ok o →
  ∃ c, pathCost edges nodes = Ok c
       ∧ o = Instance nodes quick nodes c nodes c.
Proof.
  unfold __init__. destruct (pathCost edges nodes) as [c| |]; [|done..].
  py_simpl. intros [= <-]. by exists c.
Qed.

(** X15. For an instance built by [__init__], [update] with a subset that
    contains every node of the instance puts the heuristic path and cost back
    to the initial ones, whatever they had become, and touches nothing
    else. *)
Theorem update_resets_constructed edges nodes quick o (solution : list Z) :
  __init__ edges nodes quick = Ok o →
  (∀ x, x ∈ nodes → x ∈ solution) →
  ∀ table q c,
    update edges solution
      (set_heuristic_cost c (set_heuristic_path q (World table o)))
    = (Ok (), World table o).
Proof.
  intros Hinit Hall table q c.
  apply __init___ok in Hinit as (c0 & Hcost & ->).
  rewrite update_run. cbv zeta.
  cbn [self set_heuristic_cost set_heuristic_path initial_path].
  rewrite filter_all.
  - by rewrite Hcost.
  - intros x Hx. unfold contains. apply bool_decide_eq_true. by apply Hall.
Qed.

Lemma update_resets_constructed_witness :
  __init__ cross [0; 1; 2; 3] false
  = Ok (Instance [0; 1; 2; 3] false [0; 1; 2; 3] 8 [0; 1; 2; 3] 8)
  ∧ update cross [3; 2; 1; 0] doctest_world
    = (Ok (), World ∅ (Instance [0; 1; 2; 3] false [0; 1; 2; 3] 8
                         [0; 1; 2; 3] 8)).
Proof.
  assert (H0 : __init__ cross [0; 1; 2; 3] false
               = Ok (Instance [0; 1; 2; 3] false [0; 1; 2; 3] 8
                       [0; 1; 2; 3] 8)) by reflexivity.
  split; [exact H0|].
  refine (update_resets_constructed cross [0; 1; 2; 3] false _ [3; 2; 1; 0]
            H0 _ ∅ start 10).
  intros x Hx. vm_compute in Hx.
  repeat (apply elem_of_cons in Hx as [->|Hx]; [set_solver|]).
  by apply elem_of_nil in Hx.
Defined.

(** X16. From construction to result: for an instance built by [__init__]
    from a list of nodes over a matrix of integers, where costs are added
    exactly, that is defined and symmetric on these nodes, with no cache
    entry for them, [optimise] with the 2-opt engine returns a rearrangement
    of the nodes whose cost is its [pathCost] and is at most the initial
    cost; the initial path and cost of the instance stay as constructed. *)
Theorem constructed_optimise_improves edges nodes quick o
    (table : gmap string route) :
  __init__ edges nodes quick = Ok o →
  valid_tour edges nodes = true → symmetric_on edges nodes = true →
  table !! route_key nodes = None →
  ∃ p c w',
    (∀ fuel, (fuel_bound edges nodes ≤ fuel)%nat →
       optimise (_optimise edges fuel) (World table o) = (Ok (p, c), w'))
    ∧ p ≡ₚ nodes
    ∧ pathCost edges p = Ok c
    ∧ c ≤ initial_cost o
    ∧ initial_path (self w') = nodes
    ∧ initial_cost (self w') = initial_cost o.
Proof.
  intros Hinit Hv Hs Hmiss.
  apply __init___ok in Hinit as (c0 & Hcost & ->).
  assert (Hne : nodes ≠ []) by (intros ->; by rewrite pathCost_nil in Hcost).
  rewrite pathCost_total in Hcost by done. injection Hcost as <-.
  destruct (_optimise_loop_total edges quick nodes Hv Hs)
    as (p & Hperm & _ & Hle & Hrun).
  assert (Hp : pathCost edges p = Ok (cycle_cost (dist_total edges) p)).
  { apply pathCost_total; [by apply (Permutation_nonempty _ nodes)|].
    by apply (valid_tour_Permutation edges nodes). }
  eexists p, _, _. split_and!; [|done|exact Hp|done| |].
  - intros fuel Hfuel. rewrite optimise_miss by done.
    rewrite _optimise_run. cbn [self heuristic_path fast].
    rewrite Hrun, Hp, save_run by done. reflexivity.
  - reflexivity.
  - reflexivity.
Qed.

Lemma constructed_optimise_improves_witness :
  __init__ cross start false = Ok (Instance start false start 10 start 10)
  ∧ valid_tour cross start = true ∧ symmetric_on cross start = true
  ∧ (∅ : gmap string route) !! route_key start = None
  ∧ ∃ p c w',
      optimise (_optimise cross (fuel_bound cross start)) (World ∅
        (Instance start false start 10 start 10)) = (Ok (p, c), w')
      ∧ c ≤ 10.
Proof.
  assert (H0 : __init__ cross start false
               = Ok (Instance start false start 10 start 10)) by reflexivity.
  assert (H1 : valid_tour cross start = true) by reflexivity.
  assert (H2 : symmetric_on cross start = true) by reflexivity.
  assert (H3 : (∅ : gmap string route) !! route_key start = None)
    by reflexivity.
  destruct (constructed_optimise_improves cross start false _ ∅ H0 H1 H2 H3)
    as (p & c & w' & Hrun & _ & _ & Hle & _).
  split_and!; [exact H0|exact H1|exact H2|exact H3|].
  exists p, c, w'. split; [apply Hrun; apply le_n|exact Hle].
Defined.

(** X17. The cache keeps one entry per set of nodes and the last write wins:
    saving a tour over nodes that already have an entry replaces that entry
    and the heuristic state without comparing the costs, so that nothing of
    the earlier [save] is left. *)
Theorem save_last_write_wins (p q : list Z) (c c' : Z) (w : world) :
  q ≡ₚ p → save q c' (save p c w).2 = save q c' w.
Proof.
  intros Hperm. rewrite !save_run. cbn [snd]. f_equal.
  unfold set_route, set_heuristic_cost, set_heuristic_path.
  cbn [routes self nodes fast initial_path initial_cost heuristic_path
       heuristic_cost].
  rewrite (route_key_Permutation _ _ Hperm). by rewrite insert_insert_eq.
Qed.

Lemma save_last_write_wins_witness :
  start ≡ₚ [0; 1; 2; 3]
  ∧ save start 10 (save [0; 1; 2; 3] 8 doctest_world).2
    = save start 10 doctest_world.
Proof.
  assert (H0 : start ≡ₚ [0; 1; 2; 3]).
  { unfold start. apply perm_skip, perm_swap. }
  split; [exact H0|].
  exact (save_last_write_wins [0; 1; 2; 3] start 8 10 doctest_world H0).
Defined.

(** ** The cache key *)

Lemma string_app_assoc (s1 s2 s3 : string) :
  (s1 +:+ s2) +:+ s3 = s1 +:+ (s2 +:+ s3).
Proof.
  induction s1 as [|c s1 IH]; [done|].
  change (String c ((s1 +:+ s2) +:+ s3) = String c (s1 +:+ (s2 +:+ s3))).
  by rewrite IH.
Qed.

Lemma split_at_delimiter s1 s2 c1 c2 r1 r2 :
  undelimited s1 → undelimited s2 →
  c1 = ","%char ∨ c1 = "]"%char → c2 = ","%char ∨ c2 = "]"%char →
  s1 +:+ String c1 r1 = s2 +:+ String c2 r2 →
  s1 = s2 ∧ c1 = c2 ∧ r1 = r2.
Proof.
  revert s2. induction s1 as [|a s1 IH]; intros [|b s2] H1 H2 Hc1 Hc2 Heq;
    cbn in *.
  - by injection Heq as -> ->.
  - injection Heq as -> _. destruct H2 as (? & ? & _). by destruct Hc1.
  - injection Heq as -> _. destruct H1 as (? & ? & _). by destruct Hc2.
  - injection Heq as -> Heq. destruct H1 as (_ & _ & H1), H2 as (_ & _ & H2).
    destruct (IH s2 H1 H2 Hc1 Hc2 Heq) as (-> & -> & ->). done.
Qed.

Lemma pretty_N_go_undelimited (x : N) s :
  undelimited s → undelimited (pretty_N_go x s).
Proof.
  revert s. induction (N.lt_wf_0 x) as [x _ IH]; intros s Hs.
  destruct (decide (x = 0)%N) as [->|Hx]; [by rewrite pretty_N_go_0|].
  rewrite pretty_N_go_step by lia. apply IH; [apply N.div_lt; lia|].
  cbn. split_and!; [| |done]; unfold pretty_N_char; by repeat case_match.
Qed.

Lemma pretty_N_go_nonempty (x : N) s : s ≠ "" → pretty_N_go x s ≠ "".
Proof.
  revert s. induction (N.lt_wf_0 x) as [x _ IH]; intros s Hs.
  destruct (decide (x = 0)%N) as [->|Hx]; [by rewrite pretty_N_go_0|].
  rewrite pretty_N_go_step by lia. apply IH; [apply N.div_lt; lia|done].
Qed.

Lemma pretty_N_good (x : N) : undelimited (pretty x) ∧ pretty x ≠ "".
Proof.
  unfold pretty, pretty_N. destruct (decide (x = 0)%N) as [->|Hx].
  { split; [cbn; by split_and!|done]. }
  split; [by apply pretty_N_go_undelimited|].
  rewrite pretty_N_go_step by lia. by apply pretty_N_go_nonempty.
Qed.

Lemma pretty_Z_good (z : Z) : undelimited (pretty z) ∧ pretty z ≠ "".
Proof.
  destruct z as [|x|x]; unfold pretty, pretty_Z.
  - split; [cbn; by split_and!|done].
  - apply (pretty_N_good (N.pos x)).
  - destruct (pretty_N_good (N.pos x)) as [Hu _].
    split; [cbn; by split_and!|done].
Qed.

Lemma join_bracket s (l : list string) :
  join ", " (s :: l) +:+ "]" =
    s +:+ match l with
          | [] => "]"
          | _ :: _ => ", " +:+ (join ", " l +:+ "]")
          end.
Proof.
  destruct l as [|s' l]; [done|].
  cbn [join]. by rewrite !string_app_assoc.
Qed.

Lemma join_bracket_inj (ss1 ss2 : list string) :
  Forall (λ s, undelimited s ∧ s ≠ "") ss1 →
  Forall (λ s, undelimited s ∧ s ≠ "") ss2 →
  join ", " ss1 +:+ "]" = join ", " ss2 +:+ "]" → ss1 = ss2.
Proof.
  intros H1. revert ss2. induction H1 as [|s1 l1 [Hu1 Hn1] H1 IH];
    intros ss2 H2 Heq.
  - destruct H2 as [|s2 l2 [Hu2 Hn2] H2]; [done|].
    rewrite join_bracket in Heq. destruct s2 as [|a s2]; [done|].
    cbn in Heq. injection Heq as <- _. by destruct Hu2 as (_ & ? & _).
  - destruct H2 as [|s2 l2 [Hu2 Hn2] H2].
    { rewrite join_bracket in Heq. destruct s1 as [|a s1]; [done|].
      cbn in Heq. injection Heq as -> _. by destruct Hu1 as (_ & ? & _). }
    rewrite !join_bracket in Heq.
    destruct l1 as [|t1 l1], l2 as [|t2 l2].
    + apply split_at_delimiter in Heq as (-> & _); auto.
    + apply split_at_delimiter in Heq as (_ & [=] & _); auto.
    + apply split_at_delimiter in Heq as (_ & [=] & _); auto.
    + apply split_at_delimiter in Heq as (-> & _ & Hrest); auto.
      cbn in Hrest. injection Hrest as Hrest.
      f_equal. by apply IH.
Qed.

Lemma str_inj (l1 l2 : list Z) : str l1 = str l2 → l1 = l2.
Proof.
  unfold str. cbn. intros [= Heq].
  apply join_bracket_inj in Heq.
  - by apply (inj (fmap pretty)) in Heq.
  - apply Forall_fmap, Forall_true. intros z. apply pretty_Z_good.
  - apply Forall_fmap, Forall_true. intros z. apply pretty_Z_good.
Qed.

Lemma route_key_inj_Permutation (p q : list Z) :
  route_key p = route_key q → p ≡ₚ q.
Proof.
  unfold route_key, sorted. intros Heq%str_inj.
  by rewrite <- (merge_sort_Permutation Z.le p),
             <- (merge_sort_Permutation Z.le q), Heq.
Qed.

(** X18. Two tours get the same cache key exactly when one is a rearrangement
    of the other: tours over different nodes, or with a node a different
    number of times, never share a cache entry. *)
Theorem route_key_identifies_nodes (p q : list Z) :
  route_key p = route_key q ↔ p ≡ₚ q.
Proof.
  split; [apply route_key_inj_Permutation|apply route_key_Permutation].
Qed.

(** X19. After [save(path, cost)] the cache answers with that path and cost
    for every ordering of the nodes of [path], and answers as before for
    every other tour. *)
Theorem save_then_lookup (p q : list Z) (c : Z) (w : world) :
  (q ≡ₚ p → routes (save p c w).2 !! route_key q = Some (Route p c))
  ∧ (¬ q ≡ₚ p →
     routes (save p c w).2 !! route_key q = routes w !! route_key q).
Proof.
  rewrite save_run. cbn [snd routes set_route set_heuristic_cost
    set_heuristic_path]. split; intros Hq.
  - rewrite (route_key_Permutation _ _ Hq). apply lookup_insert_eq.
  - apply lookup_insert_ne. intros Hkey.
    apply route_key_inj_Permutation in Hkey. apply Hq. by symmetry.
Qed.

Lemma save_then_lookup_witness :
  start ≡ₚ [0; 1; 2; 3]
  ∧ routes (save [0; 1; 2; 3] 8 doctest_world).2 !! route_key start
    = Some (Route [0; 1; 2; 3] 8).
Proof.
  assert (H0 : start ≡ₚ [0; 1; 2; 3]).
  { unfold start. apply perm_skip, perm_swap. }
  destruct (save_then_lookup [0; 1; 2; 3] start 8 doctest_world) as [Hhit _].
  split; [exact H0|exact (Hhit H0)].
Defined.

(** ** [__str__] *)

Lemma join_snoc sep (l : list string) x :
  l ≠ [] → join sep (l ++ [x]) = join sep l +:+ sep +:+ x.
Proof.
  induction l as [|a [|b l] IH]; intros Hl; [done|done|].
  change (join sep ((a :: b :: l) ++ [x]))
    with (a +:+ sep +:+ join sep ((b :: l) ++ [x])).
  rewrite IH by done.
  change (join sep (a :: b :: l)) with (a +:+ sep +:+ join sep (b :: l)).
  by rewrite !string_app_assoc.
Qed.

(** X20. [__str__] raises, with IndexError, exactly for an instance of
    positive heuristic cost and empty heuristic path.  For a positive cost
    and a non-empty path the text after the header is the path followed by
    its first node again, joined by [" -> "]; the path is not rendered at all
    when the cost is zero or negative. *)
Theorem str_renders_cycle (o : instance) :
  let header :=
    "Route with " +:+ pretty (Z.of_nat (length (heuristic_path o)))
      +:+ " nodes (" +:+ pretty (heuristic_cost o) +:+ "):" +:+ newline in
  (__str__ o = Raise IndexError
   ↔ 0 < heuristic_cost o ∧ heuristic_path o = [])
  ∧ (∀ x rest, 0 < heuristic_cost o → heuristic_path o = x :: rest →
       __str__ o
       = Ok (header +:+ join " -> " (pretty <$> (x :: rest) ++ [x])))
  ∧ (heuristic_cost o ≤ 0 → __str__ o = Ok (header +:+ "No current route.")).
Proof.
  intros header. unfold __str__. fold header.
  destruct (Z.ltb_spec 0 (heuristic_cost o)) as [Hpos|Hneg].
  - destruct (heuristic_path o) as [|x rest] eqn:Hp.
    + rewrite getitem_nil. py_simpl. split_and!; [done|done|lia].
    + rewrite (getitem_nat _ 0 x) by done. py_simpl.
      split_and!; [split; [done|by intros [_ ?]]| |lia].
      intros x' rest' _ [= <- <-]. f_equal.
      rewrite fmap_app. cbn [fmap list_fmap].
      rewrite join_snoc by done. by rewrite !string_app_assoc.
  - split_and!; [split; [done|lia]|lia|done].
Qed.

Lemma str_renders_cycle_witness :
  0 < heuristic_cost (self doctest_world)
  ∧ heuristic_path (self doctest_world) = 0 :: [2; 1; 3]
  ∧ ∃ text, __str__ (self doctest_world) = Ok text.
Proof.
  assert (H0 : 0 < heuristic_cost (self doctest_world)) by (cbn; lia).
  assert (H1 : heuristic_path (self doctest_world) = 0 :: [2; 1; 3])
    by reflexivity.
  destruct (str_renders_cycle (self doctest_world)) as (_ & Hshow & _).
  split_and!; [exact H0|exact H1|].
  eexists. exact (Hshow 0 [2; 1; 3] H0 H1).
Defined.

(** X21. An [update] whose subset holds no node of the instance raises, and
    if the heuristic cost was positive it leaves an instance that [__str__]
    can no longer render. *)
Theorem update_to_nothing_breaks_str edges (solution : list Z) (w : world) :
  (∀ x, x ∈ initial_path (self w) → x ∉ solution) →
  0 < heuristic_cost (self w) →
  (update edges solution w).1 = Raise IndexError
  ∧ __str__ (self (update edges solution w).2) = Raise IndexError.
Proof.
  intros Hnone Hpos. rewrite update_run. cbv zeta.
  assert (Hp : filter (λ i, contains solution i = true)
                 (initial_path (self w)) = []).
  { destruct (filter _ _) as [|x l] eqn:E; [done|]. exfalso.
    assert (Hx : x ∈ filter (λ i, contains solution i = true)
                   (initial_path (self w))) by (rewrite E; by left).
    apply list_elem_of_filter in Hx as [Hx ?]. unfold contains in Hx.
    apply bool_decide_eq_true in Hx. by apply (Hnone x). }
  rewrite Hp, pathCost_nil. split; [done|].
  cbn [snd self set_heuristic_path]. unfold __str__.
  cbn [heuristic_cost heuristic_path].
  destruct (Z.ltb_spec 0 (heuristic_cost (self w))); [|lia].
  by rewrite getitem_nil.
Qed.

Lemma update_to_nothing_breaks_str_witness :
  (∀ x, x ∈ initial_path (self doctest_world) → x ∉ [7; 8])
  ∧ 0 < heuristic_cost (self doctest_world)
  ∧ __str__ (self (update cross [7; 8] doctest_world).2) = Raise IndexError.
Proof.
  assert (H0 : ∀ x, x ∈ initial_path (self doctest_world) → x ∉ [7; 8]).
  { intros x Hx Hy. cbn in Hx.
    repeat (apply elem_of_cons in Hx as [->|Hx];
            [repeat (apply elem_of_cons in Hy as [Hy|Hy]; [discriminate|]);
             by apply elem_of_nil in Hy|]).
    by apply elem_of_nil in Hx. }
  assert (H1 : 0 < heuristic_cost (self doctest_world)) by (cbn; lia).
  split_and!; [exact H0|exact H1|].
  exact (proj2 (update_to_nothing_breaks_str cross [7; 8] doctest_world H0 H1)).
Defined.

(** ** [setEdges] *)

(** X22. [setEdges] does not reach the cache: once [optimise] has run the
    engine and returned a tour with its cost under one matrix, [optimise]
    keeps returning that same pair, and changes nothing, after the matrix has
    been replaced by any other, whatever the tour costs under the new one. *)
Theorem cache_survives_setEdges fuel (s s' : session) (p : list Z) (c : Z) :
  routes (session_world s)
    !! route_key (heuristic_path (self (session_world s))) = None →
  session_optimise fuel s = (Ok (p, c), s') →
  pathCost (session_edges s) p = Ok c
  ∧ ∀ edges' fuel',
      session_optimise fuel' (setEdges edges' s')
      = (Ok (p, c), setEdges edges' s').
Proof.
  destruct s as [edges w]. unfold session_optimise, setEdges.
  cbn [session_edges session_world]. intros Hmiss.
  rewrite optimise_miss by done.
  destruct (_optimise edges fuel w) as [[[]| |] w'] eqn:Hrun; [|done..].
  intros [= <- <- <-].
  destruct (_optimise_effect edges fuel w w' Hrun)
    as (p' & c' & Hperm & _ & Hcost & ->).
  cbn [self set_route set_heuristic_cost set_heuristic_path heuristic_path
       heuristic_cost]. split; [done|]. intros edges' fuel'.
  cbn [session_edges session_world].
  rewrite (optimise_hit _ _ (Route p' c')).
  - reflexivity.
  - cbn [routes self set_route set_heuristic_cost set_heuristic_path
         heuristic_path].
    rewrite (route_key_Permutation _ _ Hperm). apply lookup_insert_eq.
Qed.

Lemma cache_survives_setEdges_witness :
  routes doctest_world !! route_key (heuristic_path (self doctest_world)) = None
  ∧ session_optimise 1
      (setEdges [] (session_optimise 2 (Session cross doctest_world)).2)
    = (Ok ([0; 1; 2; 3], 8),
       setEdges [] (session_optimise 2 (Session cross doctest_world)).2).
Proof.
  assert (H0 : routes (session_world (Session cross doctest_world))
               !! route_key (heuristic_path (self (session_world
                    (Session cross doctest_world)))) = None) by reflexivity.
  assert (H1 : session_optimise 2 (Session cross doctest_world)
               = (Ok ([0; 1; 2; 3], 8),
                  (session_optimise 2 (Session cross doctest_world)).2))
    by (vm_compute; reflexivity).
  split; [exact H0|].
  exact (proj2 (cache_survives_setEdges 2 _ _ _ _ H0 H1) [] 1%nat).
Defined.

(** ** What the returned tour is *)

Lemma _improve_none_all_nonneg edges fast (tour : list Z) :
  valid_tour edges tour = true →
  _improve edges fast tour (Z.of_nat (length tour)) = Ok (None, 0) →
  Forall (λ c, 0 ≤ delta_at edges tour c)
         (scan_pairs (Z.of_nat (length tour))).
Proof.
  intros Hv Hnone. destruct fast.
  - destruct (_improve_fast edges tour Hv)
      as [[Hall _]|(? & ? & ? & _ & _ & _ & Hsome)]; [done|].
    rewrite Hsome in Hnone. discriminate.
  - destruct (_improve_exhaustive edges tour Hv)
      as [[Hall _]|(? & ? & ? & _ & _ & _ & _ & Hsome)]; [done|].
    rewrite Hsome in Hnone. discriminate.
Qed.

(** X23. Over a matrix of integers, where costs are added exactly, that is
    defined and symmetric on the nodes of the tour, the tour the search loop
    returns is a local optimum of the moves it scans: reversing any sub-range
    [n+1, m] of a candidate pair of the returned tour gives a tour for which
    [pathCost] returns at least as much. *)
Theorem search_result_locally_optimal edges fast fuel (tour final : list Z) :
  valid_tour edges tour = true → symmetric_on edges tour = true →
  _optimise_loop edges fast fuel (-1) tour (Z.of_nat (length tour))
  = Ok final →
  ∀ n m, (n, m) ∈ scan_pairs (Z.of_nat (length final)) →
    ∃ c c', pathCost edges final = Ok c
            ∧ pathCost edges (swap final (n + 1) m) = Ok c'
            ∧ c ≤ c'.
Proof.
  intros Hv Hs Hrun n m Hc.
  apply _optimise_loop_sound in Hrun as [Hperm [[? _]|Hnone]]; [lia|].
  assert (Hvf : valid_tour edges final = true)
    by (apply (valid_tour_Permutation edges tour); [by symmetry|done]).
  assert (Hsf : symmetric_on edges final = true)
    by (apply (symmetric_on_Permutation edges tour); [by symmetry|done]).
  pose proof (_improve_none_all_nonneg edges fast final Hvf Hnone) as Hall.
  rewrite Forall_forall in Hall. specialize (Hall (n, m) Hc).
  apply elem_of_scan_pairs in Hc as Hr.
  destruct (scan_move_Permutation final n m Hc) as [Hperm' _].
  assert (Hne : final ≠ []) by (intros ->; simpl in *; lia).
  exists (cycle_cost (dist_total edges) final),
         (cycle_cost (dist_total edges) (swap final (n + 1) m)).
  split_and!.
  - by apply pathCost_total.
  - apply pathCost_total.
    + by apply (Permutation_nonempty _ final).
    + apply (valid_tour_Permutation edges final); [by symmetry|done].
  - rewrite move_cost by (done || lia). lia.
Qed.

Lemma search_result_locally_optimal_witness :
  valid_tour symmetric5 tour5 = true ∧ symmetric_on symmetric5 tour5 = true
  ∧ _optimise_loop symmetric5 false 3 (-1) tour5 (Z.of_nat (length tour5))
    = Ok [0; 2; 1; 3; 4]
  ∧ ∃ c c', pathCost symmetric5 [0; 2; 1; 3; 4] = Ok c
            ∧ pathCost symmetric5 (swap [0; 2; 1; 3; 4] (0 + 1) 2) = Ok c'
            ∧ c ≤ c'.
Proof.
  assert (H0 : valid_tour symmetric5 tour5 = true) by reflexivity.
  assert (H1 : symmetric_on symmetric5 tour5 = true) by reflexivity.
  assert (H2 : _optimise_loop symmetric5 false 3 (-1) tour5
                 (Z.of_nat (length tour5)) = Ok [0; 2; 1; 3; 4])
    by reflexivity.
  split_and!; [exact H0|exact H1|exact H2|].
  apply (search_result_locally_optimal symmetric5 false 3 tour5 _ H0 H1 H2).
  vm_compute. left.
Defined.
